(** * examples/title.py: the directory title lister

    A shallow embedding of [examples/title.py] and of the Python built-ins
    the script calls, followed by the properties of the script.

    The script is embedded twice. The first embedding is the one of the
    names of ASCII characters (the repertoire of the example directories)
    and of the runs in which no call but the listing raises; the module
    [U] further down is the one of every name, over Unicode text, and of
    every run. On the names of ASCII characters, in a world where the
    tests report and the writes succeed, the two are the same run
    ([ascii_run_agrees]).

    Scope of the first embedding.
    - A Python [str] is a [string]; the case tables of [str.title] are the
      ones of the ASCII letters; they say nothing of the other
      characters.
    - [Path('.')] is a POSIX path: paths compare by their parts, and the
      parts compare as strings, code point by code point.
    - The file system is what the two calls of the script observe:
      the outcome of listing the current directory, which may be an
      exception, and the report of the "is a directory" predicate for a
      name, which is a truth value.
    - A call of [print] appends its text to the standard output.
    - A run is a computation in a state and exception monad; the state is
      the trace of the calls that reach the outside world, the standard
      output is the text of the write events of the trace. *)

From Stdlib Require Import Bool List Arith NArith Lia.
From Stdlib Require Import Ascii String.
From Stdlib Require Import Sorting.Sorted Sorting.Permutation.
Import ListNotations.

Local Open Scope list_scope.
Local Open Scope string_scope.

(** ** Python values *)

Definition str := string.

(** The exceptions the calls of the script can raise. *)
Inductive exn : Type :=
| OSError (errno : N)
| ValueError (msg : str)
| UnicodeEncodeError.

Inductive result (A : Type) : Type :=
| Ok (a : A)
| Raise (e : exn).

Arguments Ok {A} a.
Arguments Raise {A} e.

(** ** Characters: the ASCII case tables *)

Module Char.

Definition code (c : ascii) : N := N_of_ascii c.

(** 'A' .. 'Z' *)
Definition isupper (c : ascii) : bool :=
  (65 <=? code c)%N && (code c <=? 90)%N.

(** 'a' .. 'z' *)
Definition islower (c : ascii) : bool :=
  (97 <=? code c)%N && (code c <=? 122)%N.

(** A cased character is one with an upper or a lower case variant; over
    ASCII these are the alphabetic characters. *)
Definition iscased (c : ascii) : bool := isupper c || islower c.

Definition isalpha (c : ascii) : bool := iscased c.

Definition toupper (c : ascii) : ascii :=
  if islower c then ascii_of_N (code c - 32) else c.

Definition tolower (c : ascii) : ascii :=
  if isupper c then ascii_of_N (code c + 32) else c.

(** Over ASCII the title case of a character is its upper case. *)
Definition totitle (c : ascii) : ascii := toupper c.

(** The white space of [str.split()] and [str.isspace] over ASCII:
    space, \t, \n, \v, \f, \r and the separators 0x1c .. 0x1f. *)
Definition isspace (c : ascii) : bool :=
  (code c =? 32)%N || ((9 <=? code c)%N && (code c <=? 13)%N)
  || ((28 <=? code c)%N && (code c <=? 31)%N).

End Char.

(** ** Strings *)

Definition nl : str := String (ascii_of_N 10) EmptyString.

(** [a < b] on [str]: the first position where the two differ decides, by
    code point; a proper prefix is smaller. *)
Fixpoint str_ltb (a b : str) : bool :=
  match a, b with
  | EmptyString, EmptyString => false
  | EmptyString, String _ _ => true
  | String _ _, EmptyString => false
  | String x a', String y b' =>
      if Ascii.eqb x y then str_ltb a' b'
      else (Char.code x <? Char.code y)%N
  end.

(** [sep.join(items)] *)
Fixpoint str_join (sep : str) (items : list str) : str :=
  match items with
  | [] => ""
  | [x] => x
  | x :: rest => x ++ sep ++ str_join sep rest
  end.

(** The scan of [s.split(sep)] for a non-empty [sep]: [skip] counts the
    characters of a separator found at an earlier position that are still to
    be passed over, [cur] holds the characters of the current piece in
    reverse. The separators found are the leftmost, non-overlapping ones. *)
Fixpoint split_scan (sep : str) (skip : nat) (cur : list ascii) (s : str)
  : list str :=
  match s with
  | EmptyString => [string_of_list_ascii (rev cur)]
  | String c s' =>
      match skip with
      | S k => split_scan sep k cur s'
      | O =>
          if String.prefix sep s
          then string_of_list_ascii (rev cur)
                 :: split_scan sep (String.length sep - 1) [] s'
          else split_scan sep 0 (c :: cur) s'
      end
  end.

(** [s.split(sep)] with an explicit separator: [ValueError] for the empty
    separator, otherwise the pieces between the occurrences of [sep]. *)
Definition str_split (s sep : str) : result (list str) :=
  match sep with
  | EmptyString => Raise (ValueError "empty separator")
  | String _ _ => Ok (split_scan sep 0 [] s)
  end.

(** The loop of [s.title()] on a text of ASCII characters: a character
    that follows a cased character is lower-cased, any other character is
    title-cased ([U.title_loop] is the loop over Unicode text). *)
Fixpoint title_from (previous_is_cased : bool) (s : str) : str :=
  match s with
  | EmptyString => EmptyString
  | String c s' =>
      String (if previous_is_cased then Char.tolower c else Char.totitle c)
             (title_from (Char.iscased c) s')
  end.

(** [s.title()] *)
Definition title (s : str) : str := title_from false s.

(** ** Lists: comparison and [list.sort] *)

(** [a < b] on lists of [str]: the first position where the two differ
    decides; a proper prefix is smaller. *)
Fixpoint list_ltb (a b : list str) : bool :=
  match a, b with
  | [], [] => false
  | [], _ :: _ => true
  | _ :: _, [] => false
  | x :: a', y :: b' =>
      if String.eqb x y then list_ltb a' b' else str_ltb x y
  end.

Section ListSort.

Context {A : Type} (ltb : A -> A -> bool).

(** One step of the insertion: [x] goes in front of the first element it
    is smaller than, hence behind the elements equal to it. *)
Fixpoint insort (x : A) (sorted : list A) : list A :=
  match sorted with
  | [] => [x]
  | y :: rest => if ltb x y then x :: y :: rest else y :: insort x rest
  end.

(** [l.sort()]: a stable sort that compares with [<] only. The elements
    are inserted from left to right into the sorted prefix. *)
Definition list_sort (l : list A) : list A :=
  fold_left (fun sorted x => insort x sorted) l [].

End ListSort.

(** ** pathlib *)

(** A relative POSIX path, by its parts. *)
Record Path : Type := mkPath { parts : list str }.

(** [Path('.')]: the path with no part. *)
Definition cwd : Path := mkPath [].

(** [str(p)] *)
Definition Path_str (p : Path) : str :=
  match parts p with
  | [] => "."
  | _ :: _ => str_join "/" (parts p)
  end.

(** The path of the entry [name] of the directory [p]. *)
Definition make_child_relpath (p : Path) (name : str) : Path :=
  mkPath (parts p ++ [name])%list.

(** [p < q]: the parts are compared as lists. *)
Definition Path_ltb (p q : Path) : bool := list_ltb (parts p) (parts q).

(** ** The outside world and the monad of a run *)

(** What the script observes of the file system: the outcome of
    [os.listdir(path)] (the names in the order the system yields them) and
    the report of the "is a directory" test for a path. *)
Record world : Type := mkWorld {
  fs_listdir : str -> result (list str);
  fs_is_dir : str -> bool
}.

(** The calls that reach outside the process, in the order they are made. *)
Inductive event : Type :=
| ev_listdir (path : str)
| ev_is_dir (path : str)
| ev_write (text : str).

Definition trace := list event.

(** A computation reads and extends the trace and returns a value or
    raises; what was traced before an exception stays traced. *)
Definition M (A : Type) : Type := trace -> result A * trace.

Definition ret {A} (a : A) : M A := fun t => (Ok a, t).

Definition bind {A B} (m : M A) (k : A -> M B) : M B :=
  fun t =>
    match m t with
    | (Ok a, t') => k a t'
    | (Raise e, t') => (Raise e, t')
    end.

Definition emit (ev : event) : M unit := fun t => (Ok tt, (t ++ [ev])%list).

Definition lift {A} (r : result A) : M A := fun t => (r, t).

Notation "x <- m ;; k" := (bind m (fun x => k))
  (at level 61, m at next level, right associativity).
Notation "m ;;; k" := (bind m (fun _ => k))
  (at level 61, right associativity).

(** [[x for x in xs if test(x)]] *)
Fixpoint filterM {A} (test : A -> M bool) (xs : list A) : M (list A) :=
  match xs with
  | [] => ret []
  | x :: xs' =>
      b <- test x ;;
      kept <- filterM test xs' ;;
      ret (if b then x :: kept else kept)
  end.

(** [for x in xs: body(x)] *)
Fixpoint for_each {A} (xs : list A) (body : A -> M unit) : M unit :=
  match xs with
  | [] => ret tt
  | x :: xs' => body x ;;; for_each xs' body
  end.

(** [p.iterdir()]: the directory is listed in one call, which may raise;
    the entries are the children of [p]. *)
Definition iterdir (w : world) (p : Path) : M (list Path) :=
  emit (ev_listdir (Path_str p)) ;;;
  names <- lift (fs_listdir w (Path_str p)) ;;
  ret (map (make_child_relpath p) names).

(** [x.is_dir()], in a world where the test reports ([U.is_dir] is the
    test that can also raise). *)
Definition is_dir (w : world) (x : Path) : M bool :=
  emit (ev_is_dir (Path_str x)) ;;;
  ret (fs_is_dir w (Path_str x)).

(** [print(s)]: [s] and the line end are written to the standard output,
    in a world where the write succeeds ([U.print] is the call that can
    also raise). *)
Definition print (s : str) : M unit := emit (ev_write (s ++ nl)).

(** ** The script *)

(** [" ".join([name.title() for name in str(dir).split("-")])] *)
Definition folder_name (dir : str) : result str :=
  match str_split dir "-" with
  | Ok names => Ok (str_join " " (map title names))
  | Raise e => Raise e
  end.

(** [f"## [{folder_name}](/examples/{str(dir)})\n\n"] *)
Definition heading (folder_name dir : str) : str :=
  "## [" ++ folder_name ++ "](/examples/" ++ dir ++ ")".

Definition fstring (folder_name dir : str) : str :=
  heading folder_name dir ++ nl ++ nl.

(** The body of the loop. *)
Definition loop_body (dir : Path) : M unit :=
  name <- lift (folder_name (Path_str dir)) ;;
  print (fstring name (Path_str dir)).

Definition main (w : world) : M unit :=
  let p := cwd in
  xs <- iterdir w p ;;
  dirs <- filterM (is_dir w) xs ;;
  let dirs := list_sort Path_ltb dirs in
  for_each dirs loop_body.

(** A run starts with the empty trace. *)
Definition run (w : world) : result unit * trace := main w [].

(** The text on the standard output: the writes, in order. *)
Fixpoint stdout (t : trace) : str :=
  match t with
  | [] => ""
  | ev_write text :: t' => text ++ stdout t'
  | _ :: t' => stdout t'
  end.

(** The texts of the writes, one per call of [print]. *)
Fixpoint writes (t : trace) : list str :=
  match t with
  | [] => []
  | ev_write text :: t' => text :: writes t'
  | _ :: t' => writes t'
  end.

(** The exit status of the interpreter: 1 after an uncaught exception. *)
Definition exit_status (r : result unit) : N :=
  match r with
  | Ok _ => 0
  | Raise _ => 1
  end.

(** A directory with the given entries, the sub-directories being [dirs]. *)
Definition directory (names dirs : list str) : world :=
  mkWorld (fun _ => Ok names)
          (fun path => existsb (String.eqb path) dirs).

(** A directory that cannot be listed. *)
Definition unreadable (errno : N) : world :=
  mkWorld (fun _ => Raise (OSError errno)) (fun _ => false).

(** ** What a run prints, in closed form *)

(** The pieces of a name between its hyphens, by a direct recursion on the
    name. *)
Fixpoint split_on (d : ascii) (s : str) : list str :=
  match s with
  | EmptyString => [""]
  | String c s' =>
      if Ascii.eqb c d then "" :: split_on d s'
      else match split_on d s' with
           | [] => [String c ""]
           | piece :: pieces => String c piece :: pieces
           end
  end.

Definition hyphen : ascii := "-"%char.

(** The title the script displays for a directory name. *)
Definition displayed_title (name : str) : str :=
  str_join " " (map title (split_on hyphen name)).

(** The text one call of [print] writes for a directory name. *)
Definition block (name : str) : str :=
  heading (displayed_title name) name ++ nl ++ nl ++ nl.

(** The names of the sub-directories in the order they are printed. *)
Definition printed_dirs (w : world) (names : list str) : list str :=
  list_sort str_ltb (filter (fs_is_dir w) names).

(** [a] does not come after [b] for the comparison [ltb]. *)
Definition not_after {A : Type} (ltb : A -> A -> bool) (a b : A) : Prop :=
  ltb b a = false.

(** [a <= b] on [str]. *)
Definition str_le (a b : str) : Prop := str_ltb b a = false.

Definition str_lt (a b : str) : Prop := str_ltb a b = true.

(** No write event in a trace. *)
Definition silent (t : trace) : Prop := writes t = [].

(** ** The wording of the specification *)

Module Spec.

(** Title case by white-space delimited words: in each word the first
    alphabetic character is upper-cased, the rest is lower-cased.
    [seen] tells whether the current word already had an alphabetic
    character. *)
Fixpoint title_from (seen : bool) (s : str) : str :=
  match s with
  | EmptyString => EmptyString
  | String c s' =>
      if Char.isspace c then String c (title_from false s')
      else if Char.isalpha c
           then String (if seen then Char.tolower c else Char.toupper c)
                       (title_from true s')
           else String (Char.tolower c) (title_from seen s')
  end.

Definition title (s : str) : str := title_from false s.

(** Split on every hyphen, title-case each piece, join with one space. *)
Definition displayed_title (name : str) : str :=
  str_join " " (map title (split_on hyphen name)).

(** The heading line followed by two newline characters. *)
Definition block (name : str) : str :=
  heading (displayed_title name) name ++ nl ++ nl.

(** The output for the printed names [dirs]: one block per name. *)
Definition output (dirs : list str) : str :=
  String.concat "" (map block dirs).

End Spec.

(** The character [d] occurs in [s]. *)
Fixpoint mem_char (d : ascii) (s : str) : bool :=
  match s with
  | EmptyString => false
  | String c s' => Ascii.eqb c d || mem_char d s'
  end.

(** The events of a successful run over the listing [names]: the listing,
    one test per entry, one write per sub-directory. *)
Definition run_trace (w : world) (names : list str) : trace :=
  (ev_listdir "." :: map ev_is_dir names
     ++ map (fun name => ev_write (block name)) (printed_dirs w names))%list.

(** Two observations of the same directory: the listing fails the same
    way, or the two list the same names, in whatever order, and the
    "is a directory" test reports the same for each of them. *)
Definition same_contents (w1 w2 : world) : Prop :=
  match fs_listdir w1 ".", fs_listdir w2 "." with
  | Ok names1, Ok names2 =>
      Permutation names1 names2
      /\ forall name, In name names1 -> fs_is_dir w1 name = fs_is_dir w2 name
  | Raise e1, Raise e2 => e1 = e2
  | _, _ => False
  end.

(** [s.replace(old, new)] for one-character [old] and [new]. *)
Fixpoint replace_char (old new : ascii) (s : str) : str :=
  match s with
  | EmptyString => EmptyString
  | String c s' =>
      String (if Ascii.eqb c old then new else c) (replace_char old new s')
  end.

Definition space : ascii := " "%char.

(** [a] and [b] are the same text up to the case of their letters. *)
Fixpoint eqb_nocase (a b : str) : bool :=
  match a, b with
  | EmptyString, EmptyString => true
  | String x a', String y b' =>
      Ascii.eqb (Char.tolower x) (Char.tolower y) && eqb_nocase a' b'
  | _, _ => false
  end.

(** Every character of [s] is an ASCII character. *)
Fixpoint is_ascii (s : str) : bool :=
  match s with
  | EmptyString => true
  | String c s' => (Char.code c <? 128)%N && is_ascii s'
  end.

(** [x] occurs before [y] in [l]. *)
Definition before {A : Type} (x y : A) (l : list A) : Prop :=
  exists l1 l2 l3, l = (l1 ++ x :: l2 ++ y :: l3)%list.

(** * The script over Unicode text and an outside world that can fail

    The embedding above covers the names of ASCII characters and the runs
    in which every "is a directory" test reports and every write
    succeeds. The module [U] embeds the same script for every name and
    every run: a [str] is a sequence of code points, [str.title] reads
    the Unicode character database, which is a parameter, [Path.is_dir]
    can raise the [OSError] it does not ignore and [print] can fail to
    write its text. *)

Module U.

Local Open Scope list_scope.
Local Open Scope N_scope.

Definition codepoint : Type := N.

(** A Python [str]: a sequence of code points. *)
Definition str : Type := list codepoint.

(** The text of a literal of the script. *)
Definition lit (s : string) : str := map N_of_ascii (list_ascii_of_string s).

Definition hyphen : codepoint := 45.
Definition space : codepoint := 32.
Definition newline : codepoint := 10.

(** The rows of the Unicode character database that the built-ins read:
    the properties Cased, Case_Ignorable and Alphabetic and the full
    lower, title and upper case mappings of a code point. *)
Record database : Type := mkDatabase {
  iscased : codepoint -> bool;
  iscaseignorable : codepoint -> bool;
  isalpha : codepoint -> bool;
  tolower_full : codepoint -> str;
  totitle_full : codepoint -> str;
  toupper_full : codepoint -> str
}.

(** ** Strings *)

Fixpoint eqb (a b : str) : bool :=
  match a, b with
  | [], [] => true
  | x :: a', y :: b' => (x =? y) && eqb a' b'
  | _, _ => false
  end.

(** [a < b]: the first position where the two differ decides, by code
    point; a proper prefix is smaller. *)
Fixpoint ltb (a b : str) : bool :=
  match a, b with
  | [], [] => false
  | [], _ :: _ => true
  | _ :: _, [] => false
  | x :: a', y :: b' => if x =? y then ltb a' b' else x <? y
  end.

(** [sep.join(items)] *)
Fixpoint join (sep : str) (items : list str) : str :=
  match items with
  | [] => []
  | [x] => x
  | x :: rest => x ++ sep ++ join sep rest
  end.

Fixpoint prefix (p s : str) : bool :=
  match p, s with
  | [], _ => true
  | _ :: _, [] => false
  | x :: p', y :: s' => (x =? y) && prefix p' s'
  end.

(** The scan of [s.split(sep)] for a non-empty [sep]; [skip] counts the
    characters of a separator found earlier that are still to be passed
    over, [cur] holds the current piece in reverse. *)
Fixpoint split_scan (sep : str) (skip : nat) (cur : str) (s : str)
  : list str :=
  match s with
  | [] => [rev cur]
  | c :: s' =>
      match skip with
      | S k => split_scan sep k cur s'
      | O =>
          if prefix sep s
          then rev cur :: split_scan sep (List.length sep - 1) [] s'
          else split_scan sep 0 (c :: cur) s'
      end
  end.

(** [s.split(sep)] *)
Definition split (s sep : str) : result (list str) :=
  match sep with
  | [] => Raise (ValueError "empty separator")
  | _ :: _ => Ok (split_scan sep 0 [] s)
  end.

(** The first code point of [l] that is not case-ignorable. *)
Definition first_not_ignorable (db : database) (l : str) : option codepoint :=
  find (fun c => negb (iscaseignorable db c)) l.

(** The capital sigma at the position [i] of [whole] is in the final
    position of a word: before it, over case-ignorable code points, comes
    a cased one, and after it, over case-ignorable code points, comes no
    cased one. *)
Definition final_sigma (db : database) (whole : str) (i : nat) : bool :=
  match first_not_ignorable db (rev (firstn i whole)) with
  | Some c =>
      iscased db c
      && match first_not_ignorable db (skipn (S i) whole) with
         | Some c' => negb (iscased db c')
         | None => true
         end
  | None => false
  end.

(** The lower case of the code point [c] at the position [i] of [whole]:
    the full mapping of the database, but for the capital sigma U+03A3,
    which becomes the final or the medial small sigma. *)
Definition lower_at (db : database) (whole : str) (i : nat) (c : codepoint)
  : str :=
  if c =? 931
  then [if final_sigma db whole i then 962 else 963]
  else tolower_full db c.

(** The loop of [s.title()]: a code point that follows a cased one is
    lower-cased, any other is title-cased. *)
Fixpoint title_loop (db : database) (whole : str) (i : nat)
         (previous_is_cased : bool) (rest : str) : str :=
  match rest with
  | [] => []
  | c :: rest' =>
      (if previous_is_cased then lower_at db whole i c else totitle_full db c)
        ++ title_loop db whole (S i) (iscased db c) rest'
  end.

(** [s.title()] *)
Definition title (db : database) (s : str) : str := title_loop db s 0 false s.

(** ** pathlib *)

Fixpoint list_ltb (a b : list str) : bool :=
  match a, b with
  | [], [] => false
  | [], _ :: _ => true
  | _ :: _, [] => false
  | x :: a', y :: b' => if eqb x y then list_ltb a' b' else ltb x y
  end.

Record Path : Type := mkPath { parts : list str }.

Definition cwd : Path := mkPath [].

Definition Path_str (p : Path) : str :=
  match parts p with
  | [] => lit "."
  | _ :: _ => join (lit "/") (parts p)
  end.

Definition make_child_relpath (p : Path) (name : str) : Path :=
  mkPath (parts p ++ [name]).

Definition Path_ltb (p q : Path) : bool := list_ltb (parts p) (parts q).

(** ** The outside world and the monad of a run *)

(** What the script observes: the outcome of [os.listdir(path)], the
    outcome of [Path.is_dir] for a path (its report, or the [OSError] it
    does not ignore) and the outcome of writing a text to the standard
    output (an encoding error or an error of the device). *)
Record world : Type := mkWorld {
  listdir : str -> result (list str);
  stat_is_dir : str -> result bool;
  write : str -> result unit
}.

Inductive event : Type :=
| ev_listdir (path : str)
| ev_is_dir (path : str)
| ev_write (text : str).

Definition trace : Type := list event.

Definition M (A : Type) : Type := trace -> result A * trace.

Definition ret {A} (a : A) : M A := fun t => (Ok a, t).

Definition bind {A B} (m : M A) (k : A -> M B) : M B :=
  fun t =>
    match m t with
    | (Ok a, t') => k a t'
    | (Raise e, t') => (Raise e, t')
    end.

Definition emit (ev : event) : M unit := fun t => (Ok tt, t ++ [ev]).

Definition lift {A} (r : result A) : M A := fun t => (r, t).

(** [[x for x in xs if test(x)]] *)
Fixpoint filterM {A} (test : A -> M bool) (xs : list A) : M (list A) :=
  match xs with
  | [] => ret []
  | x :: xs' =>
      bind (test x) (fun b =>
      bind (filterM test xs') (fun kept =>
      ret (if b then x :: kept else kept)))
  end.

(** [for x in xs: body(x)] *)
Fixpoint for_each {A} (xs : list A) (body : A -> M unit) : M unit :=
  match xs with
  | [] => ret tt
  | x :: xs' => bind (body x) (fun _ => for_each xs' body)
  end.

(** [p.iterdir()] *)
Definition iterdir (w : world) (p : Path) : M (list Path) :=
  bind (emit (ev_listdir (Path_str p))) (fun _ =>
  bind (lift (listdir w (Path_str p))) (fun names =>
  ret (map (make_child_relpath p) names))).

(** [x.is_dir()]: the call is made, then it reports or raises. *)
Definition is_dir (w : world) (x : Path) : M bool :=
  bind (emit (ev_is_dir (Path_str x))) (fun _ =>
  lift (stat_is_dir w (Path_str x))).

(** [print(s)]: [s] and the line end are written to the standard output,
    or the write raises and nothing of the text is written. *)
Definition print (w : world) (s : str) : M unit :=
  bind (lift (write w (s ++ [newline]))) (fun _ =>
  emit (ev_write (s ++ [newline]))).

(** ** The script *)

(** [" ".join([name.title() for name in str(dir).split("-")])] *)
Definition folder_name (db : database) (dir : str) : result str :=
  match split dir (lit "-") with
  | Ok names => Ok (join (lit " ") (map (title db) names))
  | Raise e => Raise e
  end.

(** [f"## [{folder_name}](/examples/{str(dir)})\n\n"] *)
Definition fstring (folder_name dir : str) : str :=
  lit "## [" ++ folder_name ++ lit "](/examples/" ++ dir ++ lit ")"
    ++ [newline; newline].

Definition loop_body (db : database) (w : world) (dir : Path) : M unit :=
  bind (lift (folder_name db (Path_str dir))) (fun name =>
  print w (fstring name (Path_str dir))).

Definition main (db : database) (w : world) : M unit :=
  let p := cwd in
  bind (iterdir w p) (fun xs =>
  bind (filterM (is_dir w) xs) (fun dirs =>
  let dirs := list_sort Path_ltb dirs in
  for_each dirs (loop_body db w))).

Definition run (db : database) (w : world) : result unit * trace :=
  main db w [].

(** The texts of the writes, one per call of [print] that succeeded. *)
Fixpoint writes (t : trace) : list str :=
  match t with
  | [] => []
  | ev_write text :: t' => text :: writes t'
  | _ :: t' => writes t'
  end.

(** ** What a run prints, in closed form *)

Fixpoint split_on (d : codepoint) (s : str) : list str :=
  match s with
  | [] => [[]]
  | c :: s' =>
      if c =? d then [] :: split_on d s'
      else match split_on d s' with
           | [] => [[c]]
           | piece :: pieces => (c :: piece) :: pieces
           end
  end.

Definition displayed_title (db : database) (name : str) : str :=
  join [space] (map (title db) (split_on hyphen name)).

(** The text one call of [print] writes for a directory name. *)
Definition block (db : database) (name : str) : str :=
  fstring (displayed_title db name) name ++ [newline].

(** The report of the test for a name, when it reports. *)
Definition reported (w : world) (name : str) : bool :=
  match stat_is_dir w name with
  | Ok b => b
  | Raise _ => false
  end.

Definition printed_dirs (w : world) (names : list str) : list str :=
  list_sort ltb (filter (reported w) names).

(** ** Title case, position by position *)

(** The position [i] of [s] starts a word of [s.title()]: it is the
    first position, or the code point before it is not cased. *)
Definition starts_word (db : database) (s : str) (i : nat) : bool :=
  match i with
  | O => true
  | S j =>
      match nth_error s j with
      | Some p => negb (iscased db p)
      | None => true
      end
  end.

(** What [s.title()] puts for the code point [c] at the position [i]:
    its title case at the start of a word, its lower case elsewhere. *)
Definition title_at (db : database) (s : str) (i : nat) (c : codepoint)
  : str :=
  if starts_word db s i then totitle_full db c else lower_at db s i c.

Fixpoint title_words_from (db : database) (whole : str) (i : nat)
         (rest : str) : str :=
  match rest with
  | [] => []
  | c :: rest' =>
      title_at db whole i c ++ title_words_from db whole (S i) rest'
  end.

(** Title case by words: a word starts at the first position and after
    every code point that is not cased. *)
Definition title_words (db : database) (s : str) : str :=
  title_words_from db s 0 s.

(** ** The database on the code points this development evaluates *)

Definition ascii_upper (c : codepoint) : bool := (65 <=? c) && (c <=? 90).
Definition ascii_lower (c : codepoint) : bool := (97 <=? c) && (c <=? 122).

(** The rows of the database for the ASCII block, for the ideograph
    U+65E5 (a letter without case) and for the surrogates U+D800 to
    U+DFFF (not letters, without case, mapped to themselves). The other
    code points carry the row of a code point without case and are not
    part of the excerpt. *)
Definition excerpt : database :=
  mkDatabase
    (fun c => ascii_upper c || ascii_lower c)
    (fun c => (c =? 39) || (c =? 46) || (c =? 58) || (c =? 94) || (c =? 96))
    (fun c => ascii_upper c || ascii_lower c || (c =? 26085))
    (fun c => [if ascii_upper c then c + 32 else c])
    (fun c => [if ascii_lower c then c - 32 else c])
    (fun c => [if ascii_lower c then c - 32 else c]).

Definition in_excerpt (c : codepoint) : bool :=
  (c <? 128) || (c =? 26085) || ((55296 <=? c) && (c <=? 57343)).

(** Two databases have the same rows for a code point. *)
Definition same_row (db1 db2 : database) (c : codepoint) : Prop :=
  iscased db1 c = iscased db2 c
  /\ iscaseignorable db1 c = iscaseignorable db2 c
  /\ isalpha db1 c = isalpha db2 c
  /\ tolower_full db1 c = tolower_full db2 c
  /\ totitle_full db1 c = totitle_full db2 c
  /\ toupper_full db1 c = toupper_full db2 c.

(** ** Worlds *)

Definition is_surrogate (c : codepoint) : bool :=
  (55296 <=? c) && (c <=? 57343).

(** The write of a text to a standard output that encodes in UTF-8 with
    the error handler [strict]: a surrogate cannot be encoded. *)
Definition write_utf8_strict (text : str) : result unit :=
  if existsb is_surrogate text then Raise UnicodeEncodeError else Ok tt.

(** A directory with the entries [names], the sub-directories being
    [dirs], and a standard output in UTF-8, strict. *)
Definition directory (names dirs : list str) : world :=
  mkWorld (fun _ => Ok names)
          (fun path => Ok (existsb (eqb path) dirs))
          write_utf8_strict.

(** The same directory when the test of the entry [denied] raises. *)
Definition directory_denied (names dirs : list str) (denied : str) (errno : N)
  : world :=
  mkWorld (fun _ => Ok names)
          (fun path =>
             if eqb path denied then Raise (OSError errno)
             else Ok (existsb (eqb path) dirs))
          write_utf8_strict.

End U.

(** ** The first embedding within [U] *)

(** The text of 8-bit characters with the given code points. *)
Definition unlit (s : U.str) : str :=
  string_of_list_ascii (map ascii_of_N s).

(** A world of the first embedding as a world of [U]: the tests report
    and the writes succeed. *)
Definition world_of (w : world) : U.world :=
  U.mkWorld
    (fun path =>
       match fs_listdir w (unlit path) with
       | Ok names => Ok (map U.lit names)
       | Raise e => Raise e
       end)
    (fun path => Ok (fs_is_dir w (unlit path)))
    (fun _ => Ok tt).

Definition event_of (ev : event) : U.event :=
  match ev with
  | ev_listdir path => U.ev_listdir (U.lit path)
  | ev_is_dir path => U.ev_is_dir (U.lit path)
  | ev_write text => U.ev_write (U.lit text)
  end.

(** The wording of C10 over Unicode text: a letter is upper-cased when it
    is the first code point or follows a code point that is not a letter,
    and lower-cased otherwise; what is not a letter is kept. *)
Definition alpha_title_at (db : U.database) (s : U.str) (i : nat)
           (c : U.codepoint) : U.str :=
  if U.isalpha db c
  then if match i with
          | O => true
          | S j =>
              match nth_error s j with
              | Some p => negb (U.isalpha db p)
              | None => true
              end
          end
       then U.toupper_full db c
       else U.tolower_full db c
  else [c].

Fixpoint alpha_title_from (db : U.database) (whole : U.str) (i : nat)
         (rest : U.str) : U.str :=
  match rest with
  | [] => []
  | c :: rest' =>
      (alpha_title_at db whole i c ++ alpha_title_from db whole (S i) rest')%list
  end.

Definition alpha_title (db : U.database) (s : U.str) : U.str :=
  alpha_title_from db s 0 s.

(** * Properties *)

(** ** The built-ins on examples *)

Example split_hyphens : str_split "-a--b-" "-" = Ok [""; "a"; ""; "b"; ""].
Proof. reflexivity. Qed.

Example split_leftmost : str_split "aaa" "aa" = Ok [""; "a"].
Proof. reflexivity. Qed.

Example split_empty_separator :
  str_split "abc" "" = Raise (ValueError "empty separator").
Proof. reflexivity. Qed.

Example title_words : title "hello WORLD, it's 3pm" = "Hello World, It'S 3Pm".
Proof. reflexivity. Qed.

Example join_titles : str_join " " ["A"; ""; "B"] = "A  B".
Proof. reflexivity. Qed.

Example sort_names :
  list_sort str_ltb ["b"; "a-b"; "B"; "a"; "a_b"; "ab"]
  = ["B"; "a"; "a-b"; "a_b"; "ab"; "b"].
Proof. reflexivity. Qed.

Example child_of_cwd :
  Path_str cwd = "."
  /\ Path_str (make_child_relpath cwd "foo-bar") = "foo-bar".
Proof. split; reflexivity. Qed.

(** Paths compare part by part, not as the texts of the paths. *)
Example paths_by_parts :
  Path_ltb (mkPath ["a"; "b"]) (mkPath ["a-"; "b"]) = true
  /\ str_ltb (Path_str (mkPath ["a"; "b"])) (Path_str (mkPath ["a-"; "b"]))
     = false.
Proof. split; reflexivity. Qed.

Example run_unreadable :
  run (unreadable 13) = (Raise (OSError 13), [ev_listdir "."]).
Proof. reflexivity. Qed.

Example run_one_directory :
  run (directory ["x.txt"; "simple"] ["simple"])
  = (Ok tt,
     [ev_listdir "."; ev_is_dir "x.txt"; ev_is_dir "simple";
      ev_write ("## [Simple](/examples/simple)" ++ nl ++ nl ++ nl)]).
Proof. reflexivity. Qed.

(** ** Characters *)

Lemma code_inj (x y : ascii) : Char.code x = Char.code y -> x = y.
Proof.
  unfold Char.code. intros H.
  rewrite <- (ascii_N_embedding x), <- (ascii_N_embedding y).
  now f_equal.
Qed.

Lemma tolower_uncased (c : ascii) :
  Char.iscased c = false -> Char.tolower c = c.
Proof.
  unfold Char.iscased, Char.tolower. intros H.
  apply orb_false_iff in H. destruct H as [Hu _]. now rewrite Hu.
Qed.

Lemma toupper_uncased (c : ascii) :
  Char.iscased c = false -> Char.toupper c = c.
Proof.
  unfold Char.iscased, Char.toupper. intros H.
  apply orb_false_iff in H. destruct H as [_ Hl]. now rewrite Hl.
Qed.

(** ** The order on strings *)

Lemma str_ltb_irrefl (a : str) : str_ltb a a = false.
Proof.
  induction a as [|x a IH]; simpl; [reflexivity|].
  now rewrite Ascii.eqb_refl.
Qed.

Lemma str_ltb_trans (a b c : str) :
  str_ltb a b = true -> str_ltb b c = true -> str_ltb a c = true.
Proof.
  revert b c. induction a as [|x a IH]; intros [|y b] [|z c]; simpl;
    try congruence.
  destruct (Ascii.eqb_spec x y) as [->|Hxy];
    destruct (Ascii.eqb_spec y z) as [->|Hyz].
  - apply IH.
  - intros _ H. destruct (Ascii.eqb_spec y z); [contradiction|exact H].
  - intros H _. destruct (Ascii.eqb_spec x z); [contradiction|exact H].
  - intros H1 H2. apply N.ltb_lt in H1, H2.
    destruct (Ascii.eqb_spec x z) as [->|_]; [lia|].
    apply N.ltb_lt. lia.
Qed.

(** Two strings neither of which is smaller are the same string. *)
Lemma str_ltb_trichotomy (a b : str) :
  str_ltb a b = false -> str_ltb b a = false -> a = b.
Proof.
  revert b. induction a as [|x a IH]; intros [|y b]; simpl;
    try congruence.
  rewrite (Ascii.eqb_sym y x).
  destruct (Ascii.eqb_spec x y) as [->|Hxy].
  - intros H1 H2. f_equal. now apply IH.
  - intros H1 H2. apply N.ltb_ge in H1, H2.
    exfalso. apply Hxy, code_inj. lia.
Qed.

Lemma str_ltb_asym (a b : str) : str_ltb a b = true -> str_ltb b a = false.
Proof.
  intros H. destruct (str_ltb b a) eqn:E; [|reflexivity].
  pose proof (str_ltb_trans _ _ _ H E) as F.
  rewrite str_ltb_irrefl in F. discriminate.
Qed.

(** [str_ltb] is the strict lexicographic order of the Standard Library. *)
Lemma str_ltb_compare (a b : str) :
  str_ltb a b = true <-> String.compare a b = Lt.
Proof.
  revert b. induction a as [|x a IH]; intros [|y b]; simpl;
    try (split; congruence).
  unfold Ascii.compare. fold (Char.code x) (Char.code y).
  destruct (Ascii.eqb_spec x y) as [->|Hxy].
  - rewrite N.compare_refl. apply IH.
  - destruct (N.compare_spec (Char.code x) (Char.code y)) as [E|L|G].
    + exfalso. now apply Hxy, code_inj.
    + split; [reflexivity|]. intros _. now apply N.ltb_lt.
    + split; [|discriminate]. intros H. apply N.ltb_lt in H. lia.
Qed.

Lemma str_le_trans (a b c : str) : str_le a b -> str_le b c -> str_le a c.
Proof.
  unfold str_le. intros H1 H2.
  destruct (str_ltb c a) eqn:E; [|reflexivity]. exfalso.
  destruct (str_ltb a b) eqn:Eab.
  - pose proof (str_ltb_trans _ _ _ E Eab). congruence.
  - assert (a = b) by now apply str_ltb_trichotomy. subst. congruence.
Qed.

Lemma str_le_antisym (a b : str) : str_le a b -> str_le b a -> a = b.
Proof. unfold str_le. intros H1 H2. now apply str_ltb_trichotomy. Qed.

(** The paths of the entries of [Path('.')] compare as their names. *)
Lemma Path_ltb_child (a b : str) :
  Path_ltb (make_child_relpath cwd a) (make_child_relpath cwd b)
  = str_ltb a b.
Proof.
  unfold Path_ltb; simpl.
  destruct (String.eqb_spec a b) as [->|_]; [|reflexivity].
  now rewrite str_ltb_irrefl.
Qed.

Lemma Path_str_child (a : str) : Path_str (make_child_relpath cwd a) = a.
Proof. reflexivity. Qed.

(** ** [list.sort] *)

Section SortFacts.

Context {A : Type} (ltb : A -> A -> bool).

Hypothesis ltb_asym : forall a b, ltb a b = true -> ltb b a = false.

Lemma insort_perm (x : A) (l : list A) : Permutation (insort ltb x l) (x :: l).
Proof.
  induction l as [|y l IH]; simpl; [reflexivity|].
  destruct (ltb x y); [reflexivity|].
  rewrite IH. apply perm_swap.
Qed.

Lemma fold_insort_perm (l acc : list A) :
  Permutation (fold_left (fun sorted x => insort ltb x sorted) l acc)
              (l ++ acc)%list.
Proof.
  revert acc. induction l as [|x l IH]; intros acc; simpl; [reflexivity|].
  rewrite IH, insort_perm. symmetry. apply Permutation_middle.
Qed.

Lemma list_sort_perm (l : list A) : Permutation (list_sort ltb l) l.
Proof.
  unfold list_sort. rewrite fold_insort_perm. now rewrite app_nil_r.
Qed.

Lemma insort_hd (x y : A) (l : list A) :
  (not_after ltb) y x -> HdRel (not_after ltb) y l -> HdRel (not_after ltb) y (insort ltb x l).
Proof.
  intros Hyx Hl. destruct l as [|z l]; simpl.
  - now constructor.
  - destruct (ltb x z); constructor; [exact Hyx|].
    now inversion Hl.
Qed.

Lemma insort_sorted (x : A) (l : list A) :
  Sorted (not_after ltb) l -> Sorted (not_after ltb) (insort ltb x l).
Proof.
  induction 1 as [|y l Hs IH Hhd]; simpl.
  - repeat constructor.
  - destruct (ltb x y) eqn:E.
    + constructor; [now constructor|]. constructor. now apply ltb_asym.
    + constructor; [exact IH|]. now apply insort_hd.
Qed.

Lemma fold_insort_sorted (l acc : list A) :
  Sorted (not_after ltb) acc ->
  Sorted (not_after ltb) (fold_left (fun sorted x => insort ltb x sorted) l acc).
Proof.
  revert acc. induction l as [|x l IH]; intros acc Hacc; simpl;
    [exact Hacc|].
  apply IH. now apply insort_sorted.
Qed.

Lemma list_sort_sorted (l : list A) : Sorted (not_after ltb) (list_sort ltb l).
Proof. apply fold_insort_sorted. constructor. Qed.

Hypothesis le_trans : forall a b c, (not_after ltb) a b -> (not_after ltb) b c -> (not_after ltb) a c.
Hypothesis le_antisym : forall a b, (not_after ltb) a b -> (not_after ltb) b a -> a = b.

(** A list has one sorted arrangement only. *)
Lemma sorted_perm_unique (l1 l2 : list A) :
  Sorted (not_after ltb) l1 -> Sorted (not_after ltb) l2 -> Permutation l1 l2 -> l1 = l2.
Proof.
  intros S1 S2.
  apply Sorted_StronglySorted in S1; [|exact le_trans].
  apply Sorted_StronglySorted in S2; [|exact le_trans].
  revert l2 S2. induction S1 as [|a l1 S1 IH F1]; intros l2 S2 P.
  - apply Permutation_nil in P. now subst.
  - destruct S2 as [|b l2 S2 F2].
    + symmetry in P. apply Permutation_nil in P. discriminate.
    + assert (a = b) as ->.
      { assert (In a (b :: l2)) as Ia
          by (eapply Permutation_in; [exact P|now left]).
        assert (In b (a :: l1)) as Ib
          by (eapply Permutation_in; [symmetry; exact P|now left]).
        destruct Ia as [E|Ia]; [now symmetry|].
        destruct Ib as [E|Ib]; [exact E|].
        apply le_antisym.
        - rewrite Forall_forall in F1. now apply F1.
        - rewrite Forall_forall in F2. now apply F2. }
      f_equal. apply IH; [exact S2|].
      now apply Permutation_cons_inv in P.
Qed.

Lemma list_sort_perm_eq (l1 l2 : list A) :
  Permutation l1 l2 -> list_sort ltb l1 = list_sort ltb l2.
Proof.
  intros P. apply sorted_perm_unique; try apply list_sort_sorted.
  now rewrite !list_sort_perm.
Qed.

End SortFacts.

(** Sorting commutes with a map that preserves the comparison. *)
Lemma insort_map {A B : Type} (f : A -> B) (ltbA : A -> A -> bool)
      (ltbB : B -> B -> bool) (x : A) (l : list A) :
  (forall a b, ltbB (f a) (f b) = ltbA a b) ->
  insort ltbB (f x) (map f l) = map f (insort ltbA x l).
Proof.
  intros H. induction l as [|y l IH]; simpl; [reflexivity|].
  rewrite H. destruct (ltbA x y); simpl; [reflexivity|]. now rewrite IH.
Qed.

Lemma list_sort_map {A B : Type} (f : A -> B) (ltbA : A -> A -> bool)
      (ltbB : B -> B -> bool) (l : list A) :
  (forall a b, ltbB (f a) (f b) = ltbA a b) ->
  list_sort ltbB (map f l) = map f (list_sort ltbA l).
Proof.
  intros H. unfold list_sort.
  change (@nil B) with (map f []). generalize (@nil A) as acc.
  induction l as [|x l IH]; intros acc; simpl; [reflexivity|].
  rewrite (insort_map f ltbA ltbB x acc H). apply IH.
Qed.

Lemma sorted_consecutive {A : Type} (R : A -> A -> Prop) (l : list A) :
  Sorted R l ->
  forall i a b,
    nth_error l i = Some a -> nth_error l (S i) = Some b -> R a b.
Proof.
  induction 1 as [|x l Hs IH Hhd]; intros i a b Ha Hb.
  - destruct i; discriminate.
  - destruct i as [|i]; simpl in Ha, Hb.
    + injection Ha as <-. destruct l as [|y l]; [discriminate|].
      simpl in Hb. injection Hb as <-. now inversion Hhd.
    + eapply IH; eassumption.
Qed.

(** Without repeated names the sorted order is strict. *)
Lemma sorted_strict (l : list str) :
  Sorted str_le l -> NoDup l -> Sorted str_lt l.
Proof.
  induction 1 as [|x l Hs IH Hhd]; intros Hnd; constructor.
  - apply IH. now inversion Hnd.
  - destruct Hhd as [|y l Hxy]; constructor.
    unfold str_lt. destruct (str_ltb x y) eqn:E; [reflexivity|].
    exfalso. assert (x = y) by now apply str_ltb_trichotomy.
    subst. inversion Hnd as [|? ? Hin _]. apply Hin. now left.
Qed.

Lemma printed_dirs_perm (w : world) (names : list str) :
  Permutation (printed_dirs w names) (filter (fs_is_dir w) names).
Proof. apply list_sort_perm. Qed.

Lemma printed_dirs_sorted (w : world) (names : list str) :
  Sorted str_le (printed_dirs w names).
Proof. apply list_sort_sorted. exact str_ltb_asym. Qed.

(** ** [str.split] and [str.join] *)

Lemma append_empty_r (s : str) : s ++ "" = s.
Proof. induction s as [|c s IH]; simpl; [reflexivity|now rewrite IH]. Qed.

Lemma append_assoc (a b c : str) : (a ++ b) ++ c = a ++ b ++ c.
Proof. induction a as [|x a IH]; simpl; [reflexivity|now rewrite IH]. Qed.

Lemma prefix_empty (s : str) : String.prefix "" s = true.
Proof. now destruct s. Qed.

Lemma split_on_cons (d : ascii) (s : str) :
  exists piece pieces, split_on d s = piece :: pieces.
Proof.
  induction s as [|c s (piece & pieces & IH)]; simpl.
  - now exists "", [].
  - destruct (Ascii.eqb c d).
    + now exists "", (split_on d s).
    + rewrite IH. now exists (String c piece), pieces.
Qed.

Lemma snoc_append (l : list ascii) (c : ascii) (s : str) :
  string_of_list_ascii (l ++ [c]) ++ s = string_of_list_ascii l ++ String c s.
Proof. induction l as [|x l IH]; simpl; [reflexivity|now rewrite IH]. Qed.

(** With the separator ["-"] the scan of [str.split] cuts at every hyphen. *)
Lemma split_scan_hyphen (s : str) (cur : list ascii) :
  split_scan "-" 0 cur s =
  match split_on hyphen s with
  | [] => []
  | piece :: pieces => (string_of_list_ascii (rev cur) ++ piece) :: pieces
  end.
Proof.
  revert cur. induction s as [|c s IH]; intros cur.
  - simpl. now rewrite append_empty_r.
  - cbn [split_scan split_on String.prefix String.length Nat.sub].
    rewrite prefix_empty.
    destruct (split_on_cons hyphen s) as (piece & pieces & E).
    destruct (ascii_dec "-" c) as [<-|Hc].
    + rewrite Ascii.eqb_refl, IH, E, append_empty_r. reflexivity.
    + destruct (Ascii.eqb_spec c hyphen) as [->|_]; [now destruct Hc|].
      rewrite IH, E. simpl rev. now rewrite snoc_append.
Qed.

Lemma str_split_hyphen (s : str) : str_split s "-" = Ok (split_on hyphen s).
Proof.
  unfold str_split. rewrite split_scan_hyphen.
  now destruct (split_on_cons hyphen s) as (piece & pieces & ->).
Qed.

(** The expression of the script for the title never raises. *)
Lemma folder_name_ok (name : str) :
  folder_name name = Ok (displayed_title name).
Proof. unfold folder_name. now rewrite str_split_hyphen. Qed.

Lemma str_join_cons (sep x y : str) (rest : list str) :
  str_join sep (x :: y :: rest) = x ++ sep ++ str_join sep (y :: rest).
Proof. reflexivity. Qed.

(** Joining the pieces with the separator gives the name back. *)
Lemma split_on_join (d : ascii) (s : str) :
  str_join (String d "") (split_on d s) = s.
Proof.
  induction s as [|c s IH]; [reflexivity|].
  simpl split_on.
  destruct (split_on_cons d s) as (piece & pieces & E). rewrite E in *.
  destruct (Ascii.eqb_spec c d) as [->|_].
  - rewrite str_join_cons, IH. reflexivity.
  - destruct pieces as [|q pieces].
    + simpl in *. now rewrite IH.
    + rewrite str_join_cons in *. now rewrite <- IH.
Qed.

(** No piece holds the separator. *)
Lemma split_on_pieces (d : ascii) (s : str) :
  Forall (fun piece => mem_char d piece = false) (split_on d s).
Proof.
  induction s as [|c s IH]; simpl.
  - now repeat constructor.
  - destruct (Ascii.eqb c d) eqn:E.
    + now constructor.
    + destruct (split_on d s) as [|piece pieces].
      * repeat constructor. simpl. now rewrite E.
      * inversion IH as [|? ? Hp Hps]; subst.
        constructor; [|exact Hps]. simpl. now rewrite E, Hp.
Qed.

(** One piece more than there are separators. *)
Lemma split_on_length (d : ascii) (s : str) :
  List.length (split_on d s)
  = S (List.length (filter (fun c => Ascii.eqb c d) (list_ascii_of_string s))).
Proof.
  induction s as [|c s IH]; simpl; [reflexivity|].
  destruct (Ascii.eqb c d); simpl.
  - now rewrite IH.
  - destruct (split_on d s); simpl in *; [discriminate|exact IH].
Qed.

(** ** [str.title] *)

Lemma title_from_length (b : bool) (s : str) :
  String.length (title_from b s) = String.length s.
Proof.
  revert b. induction s as [|c s IH]; intros b; simpl;
    [reflexivity|now rewrite IH].
Qed.

(** ** The run *)

Lemma filterM_is_dir (w : world) (xs : list Path) (t : trace) :
  filterM (is_dir w) xs t
  = (Ok (filter (fun x => fs_is_dir w (Path_str x)) xs),
     (t ++ map (fun x => ev_is_dir (Path_str x)) xs)%list).
Proof.
  revert t. induction xs as [|x xs IH]; intros t; simpl.
  - unfold ret. now rewrite app_nil_r.
  - unfold bind, is_dir, emit, ret at 1. simpl. rewrite IH.
    rewrite <- app_assoc. simpl.
    now destruct (fs_is_dir w (Path_str x)).
Qed.

Lemma print_block (name : str) (t : trace) :
  loop_body (make_child_relpath cwd name) t
  = (Ok tt, (t ++ [ev_write (block name)])%list).
Proof.
  unfold loop_body, bind, lift, print, emit.
  rewrite Path_str_child, folder_name_ok.
  unfold fstring, block. now rewrite !append_assoc.
Qed.

Lemma for_each_blocks (names : list str) (t : trace) :
  for_each (map (make_child_relpath cwd) names) loop_body t
  = (Ok tt, (t ++ map (fun name => ev_write (block name)) names)%list).
Proof.
  revert t. induction names as [|name names IH]; intros t; simpl.
  - unfold ret. now rewrite app_nil_r.
  - unfold bind. rewrite print_block, IH, <- app_assoc. reflexivity.
Qed.

Lemma filter_children (f : str -> bool) (names : list str) :
  filter (fun x => f (Path_str x)) (map (make_child_relpath cwd) names)
  = map (make_child_relpath cwd) (filter f names).
Proof.
  induction names as [|name names IH]; simpl; [reflexivity|].
  rewrite Path_str_child. destruct (f name); simpl; now rewrite IH.
Qed.

(** A run over a listing that succeeds. *)
Lemma run_listed (w : world) (names : list str) :
  fs_listdir w "." = Ok names -> run w = (Ok tt, run_trace w names).
Proof.
  intros H. unfold run, main, iterdir, bind, emit, lift, ret. simpl.
  change (Path_str cwd) with ".". rewrite H, filterM_is_dir.
  rewrite filter_children.
  rewrite (list_sort_map (make_child_relpath cwd) str_ltb Path_ltb)
    by exact Path_ltb_child.
  rewrite for_each_blocks. unfold run_trace, printed_dirs.
  rewrite map_map. simpl. do 3 f_equal.
Qed.

(** A run over a listing that fails. *)
Lemma run_unlisted (w : world) (e : exn) :
  fs_listdir w "." = Raise e -> run w = (Raise e, [ev_listdir "."]).
Proof.
  intros H. unfold run, main, iterdir, bind, emit, lift. simpl.
  change (Path_str cwd) with ".". now rewrite H.
Qed.

Lemma writes_app (t u : trace) :
  writes (t ++ u)%list = (writes t ++ writes u)%list.
Proof.
  induction t as [|[p|p|text] t IH]; simpl; now rewrite ?IH.
Qed.

Lemma writes_is_dir (names : list str) : writes (map ev_is_dir names) = [].
Proof. induction names; simpl; auto. Qed.

Lemma writes_blocks (names : list str) :
  writes (map (fun name => ev_write (block name)) names) = map block names.
Proof. induction names as [|n names IH]; simpl; [|rewrite IH]; reflexivity. Qed.

Lemma writes_run_trace (w : world) (names : list str) :
  writes (run_trace w names) = map block (printed_dirs w names).
Proof.
  unfold run_trace. simpl.
  now rewrite writes_app, writes_is_dir, writes_blocks.
Qed.

Lemma stdout_writes (t : trace) : stdout t = String.concat "" (writes t).
Proof.
  induction t as [|[p|p|text] t IH]; simpl; try assumption; [reflexivity|].
  rewrite IH. destruct (writes t); simpl; [now rewrite append_empty_r|reflexivity].
Qed.

Lemma writes_run (w : world) (names : list str) :
  fs_listdir w "." = Ok names ->
  writes (snd (run w)) = map block (printed_dirs w names).
Proof. intros H. rewrite (run_listed w names H). apply writes_run_trace. Qed.

Lemma stdout_run (w : world) (names : list str) :
  fs_listdir w "." = Ok names ->
  stdout (snd (run w)) = String.concat "" (map block (printed_dirs w names)).
Proof. intros H. now rewrite stdout_writes, (writes_run w names H). Qed.

(** ** The text of a block *)

Lemma append_length (a b : str) :
  String.length (a ++ b) = String.length a + String.length b.
Proof. induction a as [|x a IH]; simpl; [reflexivity|now rewrite IH]. Qed.

Lemma append_inj (a b x y : str) :
  String.length a = String.length b -> a ++ x = b ++ y -> a = b /\ x = y.
Proof.
  revert b. induction a as [|c a IH]; intros [|d b] L E; simpl in *;
    try discriminate.
  - now split.
  - injection E as -> E. injection L as L.
    destruct (IH _ L E) as [-> ->]. now split.
Qed.

Lemma append_inj_r (a x y : str) : a ++ x = a ++ y -> x = y.
Proof. intros E. now apply (append_inj a a x y eq_refl). Qed.

(** Joining with separators of one length pieces of the same lengths gives
    texts of one length. *)
Lemma str_join_map_length (f : str -> str) (sep1 sep2 : str)
      (pieces : list str) :
  (forall piece, String.length (f piece) = String.length piece) ->
  String.length sep1 = String.length sep2 ->
  String.length (str_join sep1 (map f pieces))
  = String.length (str_join sep2 pieces).
Proof.
  intros Hf Hsep. induction pieces as [|x [|y rest] IH]; simpl map.
  - reflexivity.
  - apply Hf.
  - rewrite !str_join_cons, !append_length, Hf, Hsep. simpl map in IH.
    now rewrite IH.
Qed.

(** The displayed title is as long as the name. *)
Lemma displayed_title_length (name : str) :
  String.length (displayed_title name) = String.length name.
Proof.
  unfold displayed_title.
  rewrite (str_join_map_length title " " "-").
  - change "-" with (String hyphen ""). now rewrite split_on_join.
  - intros piece. apply title_from_length.
  - reflexivity.
Qed.

Lemma block_length (name : str) :
  String.length (block name) = 2 * String.length name + 20.
Proof.
  unfold block, heading. rewrite !append_length, displayed_title_length.
  simpl. lia.
Qed.

(** Two names with the same block are the same name. *)
Lemma block_inj (a b : str) : block a = block b -> a = b.
Proof.
  intros E.
  assert (String.length a = String.length b) as L.
  { apply (f_equal String.length) in E. rewrite !block_length in E. lia. }
  unfold block, heading in E. rewrite !append_assoc in E.
  apply append_inj_r in E.
  apply append_inj in E; [|now rewrite !displayed_title_length].
  destruct E as [_ E]. apply append_inj_r in E.
  now apply append_inj in E.
Qed.

Lemma block_starts (name : str) : String.get 0 (block name) = Some "#"%char.
Proof. reflexivity. Qed.

(** ** Permutations and filters *)

Lemma perm_filter {A : Type} (f : A -> bool) (l1 l2 : list A) :
  Permutation l1 l2 -> Permutation (filter f l1) (filter f l2).
Proof.
  induction 1 as [|x l1 l2 P IH|x y l|l1 l2 l3 P1 IH1 P2 IH2]; simpl.
  - constructor.
  - destruct (f x); [now constructor|exact IH].
  - destruct (f x), (f y); try reflexivity. apply perm_swap.
  - now transitivity (filter f l2).
Qed.


Lemma printed_dirs_same (w1 w2 : world) (names1 names2 : list str) :
  Permutation names1 names2 ->
  (forall name, In name names1 -> fs_is_dir w1 name = fs_is_dir w2 name) ->
  printed_dirs w1 names1 = printed_dirs w2 names2.
Proof.
  intros P H. unfold printed_dirs.
  apply list_sort_perm_eq.
  - exact str_ltb_asym.
  - exact str_le_trans.
  - exact str_le_antisym.
  - rewrite (filter_ext_in _ _ _ H). now apply perm_filter.
Qed.

Lemma printed_dirs_In (w : world) (names : list str) (name : str) :
  In name (printed_dirs w names)
  <-> In name names /\ fs_is_dir w name = true.
Proof.
  rewrite <- filter_In. split; apply Permutation_in.
  - apply printed_dirs_perm.
  - symmetry. apply printed_dirs_perm.
Qed.

(** * The claims *)

(** C1, as stated, fails: for the directories [a] and [b] the script
    writes each heading followed by three newline characters (two of the
    format string, one of [print]), not the two of the specification. *)
Lemma two_newlines_refuted :
  stdout (snd (run (directory ["a"; "b"] ["a"; "b"])))
  = "## [A](/examples/a)" ++ nl ++ nl ++ nl
    ++ "## [B](/examples/b)" ++ nl ++ nl ++ nl
  /\ stdout (snd (run (directory ["a"; "b"] ["a"; "b"])))
     <> Spec.output ["a"; "b"].
Proof.
  split; [reflexivity|]. intros H. vm_compute in H. discriminate H.
Qed.

(** C1, amended: for every directory entry printed the script writes the
    line [## [<joined-title>](/examples/<original-path-string>)] followed
    by exactly three newline characters, that is the heading line and two
    blank lines; the next block starts with the [#] of its heading. *)
Theorem heading_then_three_newlines (w : world) (names : list str) :
  fs_listdir w "." = Ok names ->
  writes (snd (run w)) = map block (printed_dirs w names)
  /\ stdout (snd (run w)) = String.concat "" (map block (printed_dirs w names))
  /\ forall name,
       folder_name name = Ok (displayed_title name)
       /\ block name
          = "## [" ++ displayed_title name ++ "](/examples/" ++ name ++ ")"
            ++ nl ++ nl ++ nl
       /\ String.get 0 (block name) = Some "#"%char.
Proof.
  intros H.
  split; [exact (writes_run w names H)|].
  split; [exact (stdout_run w names H)|].
  intros name. split; [apply folder_name_ok|]. split; [|apply block_starts].
  unfold block, heading. now rewrite !append_assoc.
Qed.

Lemma heading_then_three_newlines_witness :
  writes (snd (run (directory ["b"; "a"; "f"] ["a"; "b"])))
  = map block (printed_dirs (directory ["b"; "a"; "f"] ["a"; "b"])
                            ["b"; "a"; "f"]).
Proof.
  exact (proj1 (heading_then_three_newlines
                  (directory ["b"; "a"; "f"] ["a"; "b"]) ["b"; "a"; "f"]
                  eq_refl)).
Defined.

(** C2, as stated, fails: [abc1def] is one white-space delimited word, so
    the specification's title case gives [Abc1def]; the script displays
    [Abc1Def]. *)
Lemma whitespace_words_refuted :
  folder_name "abc1def" = Ok "Abc1Def"
  /\ Spec.displayed_title "abc1def" = "Abc1def"
  /\ folder_name "abc1def" <> Ok (Spec.displayed_title "abc1def").
Proof.
  split; [reflexivity|]. split; [reflexivity|].
  intros H. vm_compute in H. discriminate H.
Qed.



(** C4: the blocks are printed in ascending order of the raw names,
    compared code point by code point: of two consecutive blocks the name
    of the first is strictly smaller than the name of the second. The
    names of the entries of one directory are distinct. *)
Theorem blocks_ascending (w : world) (names : list str) :
  fs_listdir w "." = Ok names ->
  NoDup names ->
  forall i first second,
    nth_error (writes (snd (run w))) i = Some first ->
    nth_error (writes (snd (run w))) (S i) = Some second ->
    exists a b,
      first = block a /\ second = block b
      /\ str_ltb a b = true /\ String.compare a b = Lt.
Proof.
  intros H Hnd i first second. rewrite (writes_run w names H).
  rewrite !nth_error_map.
  destruct (nth_error (printed_dirs w names) i) as [a|] eqn:Ea;
    [|discriminate].
  destruct (nth_error (printed_dirs w names) (S i)) as [b|] eqn:Eb;
    [|discriminate].
  simpl. intros [= <-] [= <-]. exists a, b.
  assert (str_lt a b) as Hab.
  { apply (sorted_consecutive str_lt (printed_dirs w names)) with (i := i);
      try assumption.
    apply sorted_strict; [apply printed_dirs_sorted|].
    apply (Permutation_NoDup (l := filter (fs_is_dir w) names)).
    - symmetry. apply printed_dirs_perm.
    - now apply NoDup_filter. }
  repeat split; [exact Hab|]. now apply str_ltb_compare.
Qed.

Lemma blocks_ascending_witness :
  exists a b,
    block "a-b" = block a /\ block "a_b" = block b
    /\ str_ltb a b = true /\ String.compare a b = Lt.
Proof.
  apply (blocks_ascending (directory ["a_b"; "x.txt"; "a-b"] ["a-b"; "a_b"])
                          ["a_b"; "x.txt"; "a-b"] eq_refl) with (i := 0).
  - repeat constructor; simpl; intuition discriminate.
  - reflexivity.
  - reflexivity.
Defined.

(** C5: the directory [foo-bar] is printed with the title [Foo Bar] and
    the link target [/examples/foo-bar], [a--b] with the title [A  B]
    (two spaces), [widgets] with the title [Widgets]. *)
Theorem documented_titles :
  folder_name "foo-bar" = Ok "Foo Bar"
  /\ folder_name "a--b" = Ok "A  B"
  /\ folder_name "widgets" = Ok "Widgets"
  /\ writes (snd (run (directory ["widgets"; "go.mod"; "foo-bar"; "a--b"]
                                 ["widgets"; "foo-bar"; "a--b"])))
     = [ "## [A  B](/examples/a--b)" ++ nl ++ nl ++ nl;
         "## [Foo Bar](/examples/foo-bar)" ++ nl ++ nl ++ nl;
         "## [Widgets](/examples/widgets)" ++ nl ++ nl ++ nl ].
Proof.
  rewrite !folder_name_ok.
  rewrite (writes_run (directory ["widgets"; "go.mod"; "foo-bar"; "a--b"]
                                 ["widgets"; "foo-bar"; "a--b"])
                      ["widgets"; "go.mod"; "foo-bar"; "a--b"] eq_refl).
  repeat split.
Qed.

(** C7: the output of a run is a function of the directory contents: two
    runs that observe the same entries, in whatever order the system lists
    them, write the same text and end the same way. *)
Theorem output_deterministic (w1 w2 : world) :
  same_contents w1 w2 ->
  stdout (snd (run w1)) = stdout (snd (run w2))
  /\ fst (run w1) = fst (run w2).
Proof.
  unfold same_contents.
  destruct (fs_listdir w1 ".") as [names1|e1] eqn:H1;
    destruct (fs_listdir w2 ".") as [names2|e2] eqn:H2;
    try contradiction.
  - intros [P Hd].
    rewrite (stdout_run w1 names1 H1), (stdout_run w2 names2 H2).
    rewrite (printed_dirs_same w1 w2 names1 names2 P Hd).
    rewrite (run_listed w1 names1 H1), (run_listed w2 names2 H2).
    now split.
  - intros ->.
    rewrite (run_unlisted w1 e2 H1), (run_unlisted w2 e2 H2). now split.
Qed.

Lemma output_deterministic_witness :
  stdout (snd (run (directory ["zoo"; "a.md"; "foo-bar"] ["zoo"; "foo-bar"])))
  = stdout (snd (run (directory ["foo-bar"; "zoo"; "a.md"] ["foo-bar"; "zoo"]))).
Proof.
  apply (output_deterministic
           (directory ["zoo"; "a.md"; "foo-bar"] ["zoo"; "foo-bar"])
           (directory ["foo-bar"; "zoo"; "a.md"] ["foo-bar"; "zoo"])).
  split.
  - apply Permutation_sym, (Permutation_cons_app ["zoo"; "a.md"] [] "foo-bar").
    apply Permutation_refl.
  - intros name [<-|[<-|[<-|[]]]]; reflexivity.
Defined.



(** C9: the listing is the first call of a run and is over before
    anything is written: every write follows it in the trace and is made
    only after it has returned the entries; when it fails, the run ends
    with its exception, a non-zero exit status and nothing written. *)
Theorem listing_precedes_output (w : world) :
  (exists rest, snd (run w) = ev_listdir "." :: rest)
  /\ (forall before text after,
        snd (run w) = (before ++ ev_write text :: after)%list ->
        In (ev_listdir ".") before
        /\ exists names, fs_listdir w "." = Ok names)
  /\ (forall e,
        fs_listdir w "." = Raise e ->
        run w = (Raise e, [ev_listdir "."])
        /\ writes (snd (run w)) = []
        /\ stdout (snd (run w)) = ""
        /\ exit_status (fst (run w)) <> 0%N).
Proof.
  split; [|split].
  - destruct (fs_listdir w ".") as [names|e] eqn:H.
    + rewrite (run_listed w names H). now eexists.
    + rewrite (run_unlisted w e H). now eexists.
  - intros before text after.
    destruct (fs_listdir w ".") as [names|e] eqn:H.
    + rewrite (run_listed w names H). simpl. intros E.
      split; [|now exists names].
      destruct before as [|ev before]; [discriminate E|].
      injection E as <- _. now left.
    + rewrite (run_unlisted w e H). simpl. intros E.
      destruct before as [|ev [|ev' before]]; discriminate E.
  - intros e H. rewrite (run_unlisted w e H). simpl.
    repeat split. discriminate.
Qed.

Lemma listing_precedes_output_witness :
  run (unreadable 13) = (Raise (OSError 13), [ev_listdir "."])
  /\ writes (snd (run (unreadable 13))) = []
  /\ stdout (snd (run (unreadable 13))) = ""
  /\ exit_status (fst (run (unreadable 13))) <> 0%N.
Proof.
  apply (proj2 (proj2 (listing_precedes_output (unreadable 13)))).
  reflexivity.
Defined.

(** * Further properties of the script *)

(** ** Characters *)

Lemma case_keeps_cased (c : ascii) :
  Char.iscased (Char.tolower c) = Char.iscased c
  /\ Char.iscased (Char.toupper c) = Char.iscased c.
Proof. destruct c as [[] [] [] [] [] [] [] []]; split; reflexivity. Qed.

Lemma case_of_case (c : ascii) :
  Char.tolower (Char.tolower c) = Char.tolower c
  /\ Char.tolower (Char.toupper c) = Char.tolower c
  /\ Char.toupper (Char.tolower c) = Char.toupper c
  /\ Char.toupper (Char.toupper c) = Char.toupper c.
Proof. destruct c as [[] [] [] [] [] [] [] []]; repeat split. Qed.

(** The hyphen is neither a letter nor the case variant of a letter. *)
Lemma case_hyphen (c : ascii) :
  Ascii.eqb (Char.tolower c) hyphen = Ascii.eqb c hyphen
  /\ Ascii.eqb (Char.toupper c) hyphen = Ascii.eqb c hyphen.
Proof. destruct c as [[] [] [] [] [] [] [] []]; split; reflexivity. Qed.

Lemma title_char_hyphen (b : bool) (c : ascii) :
  Ascii.eqb (if b then Char.tolower c else Char.totitle c) hyphen
  = Ascii.eqb c hyphen.
Proof. unfold Char.totitle. destruct b; apply case_hyphen. Qed.

(** ** Hyphens to spaces *)

Lemma replace_char_length (old new : ascii) (s : str) :
  String.length (replace_char old new s) = String.length s.
Proof. induction s as [|c s IH]; simpl; [reflexivity|now rewrite IH]. Qed.

Lemma replace_char_app (old new : ascii) (a b : str) :
  replace_char old new (a ++ b)
  = replace_char old new a ++ replace_char old new b.
Proof. induction a as [|c a IH]; simpl; [reflexivity|now rewrite IH]. Qed.

Lemma replace_char_gone (old new : ascii) (s : str) :
  Ascii.eqb new old = false -> mem_char old (replace_char old new s) = false.
Proof.
  intros H. induction s as [|c s IH]; simpl; [reflexivity|].
  rewrite IH, orb_false_r.
  destruct (Ascii.eqb c old) eqn:E; [exact H|exact E].
Qed.

Lemma str_join_head (sep : str) (c : ascii) (x : str) (rest : list str) :
  str_join sep (String c x :: rest) = String c (str_join sep (x :: rest)).
Proof. now destruct rest. Qed.

(** Title-casing the pieces between hyphens and joining them with spaces
    is title-casing the whole text and turning its hyphens into spaces;
    [b] is the state of the loop of [str.title] at the start. *)
Lemma joined_titles (s : str) (b : bool) :
  match split_on hyphen s with
  | [] => ""
  | piece :: pieces => str_join " " (title_from b piece :: map title pieces)
  end
  = replace_char hyphen space (title_from b s).
Proof.
  revert b. induction s as [|c s IH]; intros b; [reflexivity|].
  cbn [split_on title_from replace_char].
  rewrite title_char_hyphen.
  destruct (split_on_cons hyphen s) as (piece & pieces & E).
  destruct (Ascii.eqb_spec c hyphen) as [->|Hc].
  - specialize (IH false). rewrite E in *.
    cbn [map]. rewrite str_join_cons. unfold title at 1. rewrite IH.
    reflexivity.
  - specialize (IH (Char.iscased c)). rewrite E in *.
    cbn [title_from]. rewrite str_join_head. now rewrite IH.
Qed.

Lemma displayed_title_replace (name : str) :
  displayed_title name = replace_char hyphen space (title name).
Proof.
  unfold displayed_title, title. rewrite <- joined_titles.
  now destruct (split_on_cons hyphen name) as (piece & pieces & ->).
Qed.

Lemma title_from_app_hyphen (b : bool) (a s : str) :
  title_from b (a ++ String hyphen s)
  = title_from b a ++ String hyphen (title_from false s).
Proof.
  revert b. induction a as [|c a IH]; intros b; simpl.
  - now destruct b.
  - now rewrite IH.
Qed.

Lemma replace_char_twice (old new : ascii) (s : str) :
  Ascii.eqb new old = false ->
  replace_char old new (replace_char old new s) = replace_char old new s.
Proof.
  intros H. induction s as [|c s IH]; simpl; [reflexivity|].
  rewrite IH. destruct (Ascii.eqb c old) eqn:E; now rewrite ?H, ?E.
Qed.

(** A character of a titled text, its hyphen turned into a space, is
    its own title-case variant, and is cased as the original is. *)
Lemma retitle_char (b : bool) (c : ascii) :
  let c' := if b then Char.tolower c else Char.totitle c in
  let u := if Ascii.eqb c' hyphen then space else c' in
  (if b then Char.tolower u else Char.totitle u) = u
  /\ Char.iscased u = Char.iscased c
  /\ Char.tolower u
     = Char.tolower (if Ascii.eqb c hyphen then space else c).
Proof.
  destruct b; destruct c as [[] [] [] [] [] [] [] []]; repeat split.
Qed.

Lemma title_from_titled (b : bool) (s : str) :
  title_from b (replace_char hyphen space (title_from b s))
  = replace_char hyphen space (title_from b s).
Proof.
  revert b. induction s as [|c s IH]; intros b; [reflexivity|].
  cbn [title_from replace_char].
  destruct (retitle_char b c) as (E1 & E2 & _). cbv zeta in E1, E2.
  rewrite E1, E2. now rewrite IH.
Qed.

Lemma titled_nocase (b : bool) (s : str) :
  eqb_nocase (replace_char hyphen space (title_from b s))
             (replace_char hyphen space s) = true.
Proof.
  revert b. induction s as [|c s IH]; intros b; [reflexivity|].
  cbn [title_from replace_char eqb_nocase].
  destruct (retitle_char b c) as (_ & _ & E3). cbv zeta in E3.
  now rewrite E3, Ascii.eqb_refl, IH.
Qed.

Lemma title_from_nocase (st : bool) (a b : str) :
  eqb_nocase a b = true -> title_from st a = title_from st b.
Proof.
  revert st b. induction a as [|x a IH]; intros st [|y b] H;
    try discriminate; [reflexivity|].
  simpl in H. apply andb_true_iff in H. destruct H as [Hc H].
  apply Ascii.eqb_eq in Hc.
  assert (Char.toupper x = Char.toupper y) as Hu.
  { destruct (case_of_case x) as (_ & _ & <- & _).
    destruct (case_of_case y) as (_ & _ & <- & _). now rewrite Hc. }
  assert (Char.iscased x = Char.iscased y) as Hi.
  { destruct (case_keeps_cased x) as [<- _].
    destruct (case_keeps_cased y) as [<- _]. now rewrite Hc. }
  assert (Char.tolower x = Char.tolower y) as Hl by exact Hc.
  simpl. unfold Char.totitle. rewrite Hu, Hi, Hl. f_equal. now apply IH.
Qed.

(** The title of a text of ASCII characters is one. *)
Lemma title_char_ascii (b : bool) (c : ascii) :
  (Char.code c <? 128)%N = true ->
  (Char.code (if Ascii.eqb (if b then Char.tolower c else Char.totitle c)
                           hyphen
              then space
              else if b then Char.tolower c else Char.totitle c)
   <? 128)%N = true.
Proof.
  destruct b; destruct c as [[] [] [] [] [] [] [] []]; intros H;
    solve [discriminate H | reflexivity].
Qed.

Lemma displayed_title_ascii (name : str) :
  is_ascii name = true -> is_ascii (displayed_title name) = true.
Proof.
  rewrite displayed_title_replace. unfold title. generalize false as b.
  induction name as [|c s IH]; intros b H; [reflexivity|].
  simpl in H. apply andb_true_iff in H. destruct H as [Hc Hs].
  cbn [title_from replace_char is_ascii].
  now rewrite (title_char_ascii b c Hc), IH.
Qed.

(** ** The title *)

(** X1: for a name of ASCII characters the displayed title is
    [name.title()] with every hyphen turned into a space: splitting at
    the hyphens before title-casing changes nothing else. The title is as
    long as the name. *)
Theorem title_then_spaces (name : str) :
  is_ascii name = true ->
  folder_name name = Ok (replace_char hyphen space (title name))
  /\ String.length (replace_char hyphen space (title name))
     = String.length name.
Proof.
  intros _. split.
  - now rewrite folder_name_ok, displayed_title_replace.
  - rewrite replace_char_length. apply title_from_length.
Qed.

Lemma title_then_spaces_witness :
  folder_name "foo-bar" = Ok (replace_char hyphen space (title "foo-bar"))
  /\ String.length (replace_char hyphen space (title "foo-bar"))
     = String.length "foo-bar".
Proof. apply (title_then_spaces "foo-bar"). reflexivity. Defined.

(** X2: the displayed title never holds a hyphen. *)
Theorem title_has_no_hyphen (name : str) :
  exists t, folder_name name = Ok t /\ mem_char hyphen t = false.
Proof.
  exists (displayed_title name). split; [apply folder_name_ok|].
  rewrite displayed_title_replace. now apply replace_char_gone.
Qed.

(** X3: the title of two names joined by a hyphen is the title of the
    first, a space, and the title of the second. *)
Theorem title_of_hyphenated (a b ta tb : str) :
  folder_name a = Ok ta ->
  folder_name b = Ok tb ->
  folder_name (a ++ "-" ++ b) = Ok (ta ++ " " ++ tb).
Proof.
  rewrite !folder_name_ok, !displayed_title_replace.
  intros [= <-] [= <-]. f_equal. unfold title.
  change ("-" ++ b) with (String hyphen b).
  now rewrite title_from_app_hyphen, replace_char_app.
Qed.

Lemma title_of_hyphenated_witness :
  folder_name ("list" ++ "-" ++ "simple") = Ok ("List" ++ " " ++ "Simple").
Proof.
  apply (title_of_hyphenated "list" "simple" "List" "Simple");
    reflexivity.
Defined.

(** X4: names of ASCII characters that differ in the case of their
    letters only have the same title. *)
Theorem title_ignores_case (a b : str) :
  is_ascii a = true -> is_ascii b = true ->
  eqb_nocase a b = true -> folder_name a = folder_name b.
Proof.
  intros _ _ H. rewrite !folder_name_ok, !displayed_title_replace.
  unfold title. now rewrite (title_from_nocase false a b H).
Qed.

Lemma title_ignores_case_witness :
  folder_name "Foo-BAR" = folder_name "foo-bar".
Proof.
  apply (title_ignores_case "Foo-BAR" "foo-bar"); reflexivity.
Defined.

(** X5: the title of a name of ASCII characters is made of ASCII
    characters and is its own title: the expression of the script applied
    to it gives it back. *)
Theorem title_idempotent (name : str) :
  is_ascii name = true ->
  exists t,
    folder_name name = Ok t /\ is_ascii t = true /\ folder_name t = Ok t.
Proof.
  intros Ha.
  exists (displayed_title name). split; [apply folder_name_ok|].
  split; [now apply displayed_title_ascii|].
  rewrite folder_name_ok, !displayed_title_replace. f_equal.
  unfold title. rewrite title_from_titled.
  now apply replace_char_twice.
Qed.

Lemma title_idempotent_witness :
  exists t,
    folder_name "FOO-bar" = Ok t /\ is_ascii t = true /\ folder_name t = Ok t.
Proof. apply (title_idempotent "FOO-bar"). reflexivity. Defined.

(** X6: up to the case of its letters, the title of a name of ASCII
    characters is the name with its hyphens turned into spaces: no
    character is added, dropped or replaced by another one. *)
Theorem title_up_to_case (name : str) :
  is_ascii name = true ->
  exists t,
    folder_name name = Ok t
    /\ eqb_nocase t (replace_char hyphen space name) = true.
Proof.
  intros _.
  exists (displayed_title name). split; [apply folder_name_ok|].
  rewrite displayed_title_replace. apply titled_nocase.
Qed.

Lemma title_up_to_case_witness :
  exists t,
    folder_name "a1-B" = Ok t
    /\ eqb_nocase t (replace_char hyphen space "a1-B") = true.
Proof. apply (title_up_to_case "a1-B"). reflexivity. Defined.

Lemma block_fstring (name : str) :
  block name = fstring (displayed_title name) name ++ nl.
Proof. unfold fstring, block. now rewrite !append_assoc. Qed.

(** X7: the text written for a directory identifies the directory: two
    names give the same text only when they are the same name, also when
    their titles are the same. *)
Theorem text_identifies_directory (a b ta tb : str) :
  folder_name a = Ok ta ->
  folder_name b = Ok tb ->
  (fstring ta a = fstring tb b <-> a = b).
Proof.
  rewrite !folder_name_ok. intros [= <-] [= <-]. split.
  - intros E. apply block_inj. now rewrite !block_fstring, E.
  - now intros ->.
Qed.

Lemma text_identifies_directory_witness :
  fstring "Foo" "Foo" = fstring "Foo" "foo" <-> "Foo" = "foo".
Proof.
  apply (text_identifies_directory "Foo" "foo" "Foo" "Foo"); reflexivity.
Defined.

(** ** The calls of a run *)




















(** ** A new directory *)






(** * The script over Unicode text: properties *)

Section UnicodeFacts.

Local Open Scope list_scope.

(** ** [str.split] and [str.join] *)

Lemma u_split_on_cons (d : U.codepoint) (s : U.str) :
  exists piece pieces, U.split_on d s = piece :: pieces.
Proof.
  induction s as [|c s (piece & pieces & IH)]; simpl.
  - now exists [], [].
  - destruct (c =? d)%N.
    + now exists [], (U.split_on d s).
    + rewrite IH. now exists (c :: piece), pieces.
Qed.

Lemma u_split_scan_hyphen (s cur : U.str) :
  U.split_scan [U.hyphen] 0 cur s =
  match U.split_on U.hyphen s with
  | [] => []
  | piece :: pieces => (rev cur ++ piece) :: pieces
  end.
Proof.
  revert cur. induction s as [|c s IH]; intros cur.
  - simpl. now rewrite app_nil_r.
  - cbn [U.split_scan U.split_on U.prefix List.length Nat.sub].
    rewrite andb_true_r, (N.eqb_sym U.hyphen c).
    destruct (u_split_on_cons U.hyphen s) as (piece & pieces & E).
    destruct (c =? U.hyphen)%N.
    + rewrite IH, E, app_nil_r. reflexivity.
    + rewrite IH, E. simpl rev. now rewrite <- app_assoc.
Qed.

Lemma u_split_hyphen (s : U.str) :
  U.split s (U.lit "-") = Ok (U.split_on U.hyphen s).
Proof.
  change (U.lit "-") with [U.hyphen]. unfold U.split.
  rewrite u_split_scan_hyphen.
  now destruct (u_split_on_cons U.hyphen s) as (piece & pieces & ->).
Qed.

Lemma u_folder_name_ok (db : U.database) (name : U.str) :
  U.folder_name db name = Ok (U.displayed_title db name).
Proof. unfold U.folder_name. now rewrite u_split_hyphen. Qed.

Lemma u_join_cons (sep x y : U.str) (rest : list U.str) :
  U.join sep (x :: y :: rest) = x ++ sep ++ U.join sep (y :: rest).
Proof. reflexivity. Qed.

Lemma u_split_on_join (d : U.codepoint) (s : U.str) :
  U.join [d] (U.split_on d s) = s.
Proof.
  induction s as [|c s IH]; [reflexivity|].
  simpl U.split_on.
  destruct (u_split_on_cons d s) as (piece & pieces & E). rewrite E in *.
  destruct (N.eqb_spec c d) as [->|_].
  - rewrite u_join_cons, IH. reflexivity.
  - destruct pieces as [|q pieces].
    + simpl in *. now rewrite IH.
    + rewrite u_join_cons in *. now rewrite <- IH.
Qed.

Lemma u_split_on_pieces (d : U.codepoint) (s : U.str) :
  Forall (fun piece => ~ In d piece) (U.split_on d s).
Proof.
  induction s as [|c s IH]; simpl.
  - repeat constructor. now intros [].
  - destruct (N.eqb_spec c d) as [->|Hc].
    + constructor; [now intros []|exact IH].
    + destruct (U.split_on d s) as [|piece pieces].
      * repeat constructor. intros [E|[]]. now apply Hc.
      * inversion IH as [|? ? Hp Hps]; subst.
        constructor; [|exact Hps]. intros [E|Hin]; [now apply Hc|now apply Hp].
Qed.

Lemma u_split_on_length (d : U.codepoint) (s : U.str) :
  List.length (U.split_on d s) = S (count_occ N.eq_dec s d).
Proof.
  induction s as [|c s IH]; simpl; [reflexivity|].
  destruct (N.eqb_spec c d) as [->|Hc].
  - destruct (N.eq_dec d d) as [_|F]; [|now destruct F]. simpl. now rewrite IH.
  - destruct (N.eq_dec c d) as [F|_]; [now destruct Hc|].
    destruct (U.split_on d s); simpl in *; [discriminate|exact IH].
Qed.

(** The code points of a piece are code points of the text. *)
Lemma u_split_on_In (d : U.codepoint) (s piece : U.str) (c : U.codepoint) :
  In piece (U.split_on d s) -> In c piece -> In c s.
Proof.
  revert piece. induction s as [|x s IH]; intros piece; simpl.
  - intros [<-|[]] [].
  - destruct (x =? d)%N.
    + intros [<-|Hin] Hc; [destruct Hc|]. right. eapply IH; eassumption.
    + destruct (U.split_on d s) as [|p ps].
      * intros [<-|[]] [<-|[]]. now left.
      * intros [<-|Hin] Hc.
        -- destruct Hc as [<-|Hc]; [now left|]. right.
           apply (IH p); [now left|exact Hc].
        -- right. apply (IH piece); [now right|exact Hc].
Qed.

(** ** [str.title] *)

Lemma skipn_cons_nth {A : Type} (l : list A) (i : nat) (c : A) (r : list A) :
  skipn i l = c :: r -> nth_error l i = Some c /\ skipn (S i) l = r.
Proof.
  revert l. induction i as [|i IH]; intros [|x l] H; simpl in *;
    try discriminate.
  - injection H as -> ->. now split.
  - now apply IH.
Qed.

(** The loop of [str.title] puts, position by position, the title case
    at the start of a word and the lower case elsewhere. *)
Lemma u_title_loop_words (db : U.database) (whole rest : U.str) (i : nat)
      (b : bool) :
  skipn i whole = rest ->
  b = negb (U.starts_word db whole i) ->
  U.title_loop db whole i b rest = U.title_words_from db whole i rest.
Proof.
  revert i b. induction rest as [|c rest IH]; intros i b Hs Hb;
    [reflexivity|].
  destruct (skipn_cons_nth whole i c rest Hs) as [Hn Hs'].
  simpl. f_equal.
  - unfold U.title_at. rewrite Hb. now destruct (U.starts_word db whole i).
  - apply IH; [exact Hs'|]. simpl. rewrite Hn. now rewrite negb_involutive.
Qed.

Lemma u_title_words (db : U.database) (s : U.str) :
  U.title db s = U.title_words db s.
Proof. now apply u_title_loop_words. Qed.

(** ** Databases with the same rows *)

Lemma u_first_not_ignorable_rows (db1 db2 : U.database) (l : U.str) :
  (forall c, In c l -> U.same_row db1 db2 c) ->
  U.first_not_ignorable db1 l = U.first_not_ignorable db2 l.
Proof.
  unfold U.first_not_ignorable. induction l as [|x l IH]; intros H;
    [reflexivity|].
  simpl. destruct (H x (or_introl eq_refl)) as (_ & -> & _).
  destruct (U.iscaseignorable db2 x); simpl; [|reflexivity].
  apply IH. intros c Hc. apply H. now right.
Qed.

Lemma u_first_not_ignorable_In (db : U.database) (l : U.str) (c : U.codepoint) :
  U.first_not_ignorable db l = Some c -> In c l.
Proof. intros H. now apply find_some in H. Qed.

Lemma u_final_sigma_rows (db1 db2 : U.database) (whole : U.str) (i : nat) :
  (forall c, In c whole -> U.same_row db1 db2 c) ->
  U.final_sigma db1 whole i = U.final_sigma db2 whole i.
Proof.
  intros H. unfold U.final_sigma.
  assert (forall c, In c (rev (firstn i whole)) -> In c whole) as Hb.
  { intros c Hc. apply in_rev in Hc.
    rewrite <- (firstn_skipn i whole). apply in_or_app. now left. }
  assert (forall c, In c (skipn (S i) whole) -> In c whole) as Ha.
  { intros c Hc.
    rewrite <- (firstn_skipn (S i) whole). apply in_or_app. now right. }
  rewrite (u_first_not_ignorable_rows db1 db2 (rev (firstn i whole)))
    by (intros c Hc; apply H, Hb, Hc).
  rewrite (u_first_not_ignorable_rows db1 db2 (skipn (S i) whole))
    by (intros c Hc; apply H, Ha, Hc).
  destruct (U.first_not_ignorable db2 (rev (firstn i whole))) as [c|] eqn:E1;
    [|reflexivity].
  destruct (H c (Hb c (u_first_not_ignorable_In _ _ _ E1))) as (-> & _).
  destruct (U.first_not_ignorable db2 (skipn (S i) whole)) as [c'|] eqn:E2;
    [|reflexivity].
  now destruct (H c' (Ha c' (u_first_not_ignorable_In _ _ _ E2))) as (-> & _).
Qed.

(** The title of a text depends on the rows of its code points only. *)
Lemma u_title_loop_rows (db1 db2 : U.database) (whole rest : U.str)
      (i : nat) (b : bool) :
  (forall c, In c whole -> U.same_row db1 db2 c) ->
  (forall c, In c rest -> In c whole) ->
  U.title_loop db1 whole i b rest = U.title_loop db2 whole i b rest.
Proof.
  intros H. revert i b. induction rest as [|c rest IH]; intros i b Hr;
    [reflexivity|].
  simpl.
  destruct (H c (Hr c (or_introl eq_refl))) as (-> & _ & _ & El & Et & _).
  unfold U.lower_at. rewrite El, Et, (u_final_sigma_rows db1 db2 whole i H).
  f_equal. apply IH. intros x Hx. apply Hr. now right.
Qed.

Lemma u_title_rows (db1 db2 : U.database) (s : U.str) :
  (forall c, In c s -> U.same_row db1 db2 c) ->
  U.title db1 s = U.title db2 s.
Proof. intros H. now apply u_title_loop_rows. Qed.

Lemma u_folder_name_rows (db1 db2 : U.database) (name : U.str) :
  (forall c, In c name -> U.same_row db1 db2 c) ->
  U.folder_name db1 name = U.folder_name db2 name.
Proof.
  intros H. rewrite !u_folder_name_ok. unfold U.displayed_title.
  do 2 f_equal. apply map_ext_in. intros piece Hp.
  apply u_title_rows. intros c Hc. apply H.
  eapply u_split_on_In; eassumption.
Qed.

End UnicodeFacts.

(** ** The run *)

Section UnicodeRun.

Local Open Scope list_scope.

Lemma u_eqb_eq (a b : U.str) : U.eqb a b = true <-> a = b.
Proof.
  revert b. induction a as [|x a IH]; intros [|y b]; simpl;
    try (split; congruence).
  rewrite andb_true_iff, N.eqb_eq, IH. split.
  - now intros [-> ->].
  - now intros [= -> ->].
Qed.

Lemma u_ltb_irrefl (a : U.str) : U.ltb a a = false.
Proof.
  induction a as [|x a IH]; simpl; [reflexivity|].
  now rewrite N.eqb_refl.
Qed.

Lemma u_Path_ltb_child (a b : U.str) :
  U.Path_ltb (U.make_child_relpath U.cwd a) (U.make_child_relpath U.cwd b)
  = U.ltb a b.
Proof.
  unfold U.Path_ltb; simpl.
  destruct (U.eqb a b) eqn:E; [|reflexivity].
  apply u_eqb_eq in E. subst. now rewrite u_ltb_irrefl.
Qed.

Lemma u_Path_str_child (a : U.str) :
  U.Path_str (U.make_child_relpath U.cwd a) = a.
Proof. reflexivity. Qed.

(** A test is traced, then it reports or raises. *)
Lemma u_is_dir_call (w : U.world) (name : U.str) (t : U.trace) :
  U.is_dir w (U.make_child_relpath U.cwd name) t
  = (U.stat_is_dir w name, t ++ [U.ev_is_dir name]).
Proof. reflexivity. Qed.

Lemma u_filterM_cons {A : Type} (test : A -> U.M bool) (x : A) (xs : list A)
      (t : U.trace) :
  U.filterM test (x :: xs) t
  = match test x t with
    | (Ok b, t') =>
        match U.filterM test xs t' with
        | (Ok kept, t'') => (Ok (if b then x :: kept else kept), t'')
        | (Raise e, t'') => (Raise e, t'')
        end
    | (Raise e, t') => (Raise e, t')
    end.
Proof.
  simpl. unfold U.bind. destruct (test x t) as [[b|e] t']; [|reflexivity].
  now destruct (U.filterM test xs t') as [[kept|e] t''].
Qed.

(** The tests report for all the entries: the comprehension keeps the
    entries reported as directories. *)
Lemma u_filterM_reports (w : U.world) (names : list U.str) (t : U.trace) :
  Forall (fun n => exists b, U.stat_is_dir w n = Ok b) names ->
  U.filterM (U.is_dir w) (map (U.make_child_relpath U.cwd) names) t
  = (Ok (map (U.make_child_relpath U.cwd) (filter (U.reported w) names)),
     t ++ map U.ev_is_dir names).
Proof.
  intros H. revert t. induction H as [|name names [b Hb] _ IH]; intros t.
  - simpl. unfold U.ret. now rewrite app_nil_r.
  - cbn [map]. rewrite u_filterM_cons, u_is_dir_call, Hb, IH.
    rewrite <- app_assoc. cbn [filter].
    replace (U.reported w name) with b
      by (unfold U.reported; now rewrite Hb).
    now destruct b.
Qed.

(** The test of an entry raises: the comprehension raises at this entry,
    after the tests of the entries before it. *)
Lemma u_filterM_raises (w : U.world) (tested rest : list U.str)
      (name : U.str) (e : exn) (t : U.trace) :
  Forall (fun n => exists b, U.stat_is_dir w n = Ok b) tested ->
  U.stat_is_dir w name = Raise e ->
  U.filterM (U.is_dir w)
            (map (U.make_child_relpath U.cwd) (tested ++ name :: rest)) t
  = (Raise e, t ++ map U.ev_is_dir (tested ++ [name])).
Proof.
  intros H He. revert t. induction H as [|n tested [b Hb] _ IH]; intros t.
  - cbn [app map]. now rewrite u_filterM_cons, u_is_dir_call, He.
  - cbn [app map]. rewrite u_filterM_cons, u_is_dir_call, Hb, IH.
    now rewrite <- app_assoc.
Qed.

(** The body of the loop for a directory: its block is written, or the
    write raises. *)
Lemma u_loop_body_call (db : U.database) (w : U.world) (name : U.str)
      (t : U.trace) :
  U.loop_body db w (U.make_child_relpath U.cwd name) t
  = match U.write w (U.block db name) with
    | Ok _ => (Ok tt, t ++ [U.ev_write (U.block db name)])
    | Raise e => (Raise e, t)
    end.
Proof.
  unfold U.loop_body, U.bind at 1, U.lift at 1.
  rewrite u_Path_str_child, u_folder_name_ok.
  unfold U.print, U.bind, U.lift, U.emit.
  change (U.fstring (U.displayed_title db name) name ++ [U.newline])
    with (U.block db name).
  now destruct (U.write w (U.block db name)).
Qed.

Lemma u_for_each_cons {A : Type} (body : A -> U.M unit) (x : A) (xs : list A)
      (t : U.trace) :
  U.for_each (x :: xs) body t
  = match body x t with
    | (Ok _, t') => U.for_each xs body t'
    | (Raise e, t') => (Raise e, t')
    end.
Proof. simpl. unfold U.bind. now destruct (body x t) as [[u|e] t']. Qed.

Lemma u_for_each_written (db : U.database) (w : U.world) (dirs : list U.str)
      (t : U.trace) :
  Forall (fun d => U.write w (U.block db d) = Ok tt) dirs ->
  U.for_each (map (U.make_child_relpath U.cwd) dirs) (U.loop_body db w) t
  = (Ok tt, t ++ map (fun d => U.ev_write (U.block db d)) dirs).
Proof.
  intros H. revert t. induction H as [|d dirs Hd _ IH]; intros t.
  - simpl. unfold U.ret. now rewrite app_nil_r.
  - cbn [map]. rewrite u_for_each_cons, u_loop_body_call, Hd, IH.
    now rewrite <- app_assoc.
Qed.

Lemma u_for_each_raises (db : U.database) (w : U.world)
      (written rest : list U.str) (d : U.str) (e : exn) (t : U.trace) :
  Forall (fun n => U.write w (U.block db n) = Ok tt) written ->
  U.write w (U.block db d) = Raise e ->
  U.for_each (map (U.make_child_relpath U.cwd) (written ++ d :: rest))
             (U.loop_body db w) t
  = (Raise e, t ++ map (fun n => U.ev_write (U.block db n)) written).
Proof.
  intros H He. revert t. induction H as [|n written Hn _ IH]; intros t.
  - cbn [app map]. rewrite u_for_each_cons, u_loop_body_call, He.
    now rewrite app_nil_r.
  - cbn [app map]. rewrite u_for_each_cons, u_loop_body_call, Hn, IH.
    now rewrite <- app_assoc.
Qed.

Lemma u_filter_children (f : U.str -> bool) (names : list U.str) :
  filter (fun x => f (U.Path_str x)) (map (U.make_child_relpath U.cwd) names)
  = map (U.make_child_relpath U.cwd) (filter f names).
Proof.
  induction names as [|name names IH]; simpl; [reflexivity|].
  rewrite u_Path_str_child. destruct (f name); simpl; now rewrite IH.
Qed.

(** A run whose listing raises. *)
Lemma u_run_unlisted (db : U.database) (w : U.world) (e : exn) :
  U.listdir w (U.lit ".") = Raise e ->
  U.run db w = (Raise e, [U.ev_listdir (U.lit ".")]).
Proof.
  intros H. unfold U.run, U.main, U.iterdir, U.bind, U.emit, U.lift. simpl.
  change (U.Path_str U.cwd) with (U.lit "."). now rewrite H.
Qed.

(** A run up to the end of the comprehension. *)
Lemma u_run_listed (db : U.database) (w : U.world) (names : list U.str) :
  U.listdir w (U.lit ".") = Ok names ->
  U.run db w
  = match U.filterM (U.is_dir w) (map (U.make_child_relpath U.cwd) names)
                    [U.ev_listdir (U.lit ".")] with
    | (Ok dirs, t) =>
        U.for_each (list_sort U.Path_ltb dirs) (U.loop_body db w) t
    | (Raise e, t) => (Raise e, t)
    end.
Proof.
  intros H. unfold U.run, U.main, U.iterdir, U.bind, U.emit, U.lift, U.ret.
  simpl. change (U.Path_str U.cwd) with (U.lit "."). rewrite H.
  now destruct (U.filterM _ _ _) as [[dirs|e] t].
Qed.

(** A run in which the test of an entry raises. *)
Lemma u_run_test_raises (db : U.database) (w : U.world)
      (tested rest : list U.str) (name : U.str) (e : exn) :
  U.listdir w (U.lit ".") = Ok (tested ++ name :: rest) ->
  Forall (fun n => exists b, U.stat_is_dir w n = Ok b) tested ->
  U.stat_is_dir w name = Raise e ->
  U.run db w
  = (Raise e,
     U.ev_listdir (U.lit ".") :: map U.ev_is_dir (tested ++ [name])).
Proof.
  intros H Ht He. rewrite (u_run_listed db w _ H).
  now rewrite (u_filterM_raises w tested rest name e _ Ht He).
Qed.

(** A run in which every test reports, up to the loop. *)
Lemma u_run_tested (db : U.database) (w : U.world) (names : list U.str) :
  U.listdir w (U.lit ".") = Ok names ->
  Forall (fun n => exists b, U.stat_is_dir w n = Ok b) names ->
  U.run db w
  = U.for_each (map (U.make_child_relpath U.cwd) (U.printed_dirs w names))
               (U.loop_body db w)
               (U.ev_listdir (U.lit ".") :: map U.ev_is_dir names).
Proof.
  intros H Ht. rewrite (u_run_listed db w _ H).
  rewrite (u_filterM_reports w names _ Ht).
  rewrite (list_sort_map (U.make_child_relpath U.cwd) U.ltb U.Path_ltb)
    by exact u_Path_ltb_child.
  reflexivity.
Qed.

Lemma u_writes_app (t u : U.trace) :
  U.writes (t ++ u) = U.writes t ++ U.writes u.
Proof. induction t as [|[q|q|text] t IH]; simpl; now rewrite ?IH. Qed.

Lemma u_writes_is_dir (names : list U.str) :
  U.writes (map U.ev_is_dir names) = [].
Proof. induction names; simpl; auto. Qed.

Lemma u_writes_blocks (f : U.str -> U.str) (names : list U.str) :
  U.writes (map (fun n => U.ev_write (f n)) names) = map f names.
Proof. induction names as [|n names IH]; simpl; [|rewrite IH]; reflexivity. Qed.

End UnicodeRun.

(** * The claims on the title and on the failures of a run *)

Section UnicodeClaims.

Local Open Scope list_scope.

(** C2, amended: for every raw directory name the displayed title is the
    result of splitting the name on every hyphen (the pieces joined by
    hyphens give the name back, none holds a hyphen, there is one piece
    more than there are hyphens, empty pieces are kept), title-casing
    each piece, where a character is put in title case when it is the
    first of the piece or follows a character without case and in lower
    case otherwise, and joining the pieces with one space. The Unicode
    character database is whatever the interpreter has. *)
Theorem title_by_words_of_pieces (db : U.database) (name : U.str) :
  U.folder_name db name
  = Ok (U.join [U.space] (map (U.title_words db) (U.split_on U.hyphen name)))
  /\ U.join [U.hyphen] (U.split_on U.hyphen name) = name
  /\ Forall (fun piece => ~ In U.hyphen piece) (U.split_on U.hyphen name)
  /\ List.length (U.split_on U.hyphen name)
     = S (count_occ N.eq_dec name U.hyphen).
Proof.
  split; [|split; [|split]].
  - rewrite u_folder_name_ok. unfold U.displayed_title. do 2 f_equal.
    apply map_ext. apply u_title_words.
  - apply u_split_on_join.
  - apply u_split_on_pieces.
  - apply u_split_on_length.
Qed.

(** C10, as stated, fails: in the name made of the ideograph U+65E5 and
    of [a], both characters are alphabetic, so by the claim the [a], which
    follows an alphabetic character, is lower-cased; the script displays
    it upper-cased, because the ideograph has no case. *)
Lemma letter_after_letter_refuted :
  forallb U.in_excerpt [26085; 97]%N = true
  /\ U.isalpha U.excerpt 26085%N = true
  /\ U.isalpha U.excerpt 97%N = true
  /\ U.folder_name U.excerpt [26085; 97]%N = Ok [26085; 65]%N
  /\ alpha_title U.excerpt [26085; 97]%N = [26085; 97]%N
  /\ U.folder_name U.excerpt [26085; 97]%N
     <> Ok (alpha_title U.excerpt [26085; 97]%N).
Proof.
  repeat (split; [reflexivity|]). intros H. vm_compute in H. discriminate H.
Qed.

(** The same title for every database that has the rows of the excerpt. *)
Lemma letter_after_letter_every_database (db : U.database) :
  (forall c, U.in_excerpt c = true -> U.same_row db U.excerpt c) ->
  U.isalpha db 26085%N = true
  /\ U.isalpha db 97%N = true
  /\ U.folder_name db [26085; 97]%N = Ok [26085; 65]%N.
Proof.
  intros H.
  destruct (H 26085%N eq_refl) as (_ & _ & E1 & _).
  destruct (H 97%N eq_refl) as (_ & _ & E2 & _).
  split; [now rewrite E1|]. split; [now rewrite E2|].
  rewrite (u_folder_name_rows db U.excerpt); [reflexivity|].
  intros c [<-|[<-|[]]]; now apply H.
Qed.

(** C10, amended: in every piece between hyphens a character is put in
    title case exactly when it is the first character of the piece or
    follows a character without case, and in lower case otherwise. For
    an ASCII character this is its upper case, respectively its lower
    case, and the ASCII characters with case are the letters; so a digit
    or a punctuation mark starts a new capitalized word: [abc1def] is
    displayed as [Abc1Def] and [foo.bar] as [Foo.Bar]. *)
Theorem title_case_by_cased_runs (db : U.database) (piece : U.str)
        (i : nat) (c : U.codepoint) :
  (forall a, (a < 128)%N -> U.same_row db U.excerpt a) ->
  nth_error piece i = Some c ->
  U.title db piece = U.title_words db piece
  /\ ((c < 128)%N ->
      U.title_at db piece i c
      = [if U.starts_word db piece i
         then if U.ascii_lower c then c - 32 else c
         else if U.ascii_upper c then c + 32 else c]%N
      /\ U.iscased db c = U.ascii_upper c || U.ascii_lower c)
  /\ (forall name,
        U.folder_name db name
        = Ok (U.join [U.space] (map (U.title db) (U.split_on U.hyphen name))))
  /\ U.folder_name db (U.lit "abc1def") = Ok (U.lit "Abc1Def")
  /\ U.folder_name db (U.lit "foo.bar") = Ok (U.lit "Foo.Bar").
Proof.
  intros Hrows Hc.
  split; [apply u_title_words|]. split; [|split; [|split]].
  - intros Hlt. destruct (Hrows c Hlt) as (Ec & _ & _ & El & Et & _).
    split; [|exact Ec].
    unfold U.title_at, U.lower_at. rewrite El, Et.
    destruct (N.eqb_spec c 931) as [->|_]; [discriminate Hlt|].
    now destruct (U.starts_word db piece i).
  - intros name. apply u_folder_name_ok.
  - rewrite (u_folder_name_rows db U.excerpt); [reflexivity|].
    intros a Ha. apply Hrows. simpl in Ha.
    repeat (destruct Ha as [<-|Ha]; [reflexivity|]). destruct Ha.
  - rewrite (u_folder_name_rows db U.excerpt); [reflexivity|].
    intros a Ha. apply Hrows. simpl in Ha.
    repeat (destruct Ha as [<-|Ha]; [reflexivity|]). destruct Ha.
Qed.

Lemma title_case_by_cased_runs_witness :
  U.title_at U.excerpt (U.lit "abc1def") 4 100%N = [68%N]
  /\ U.iscased U.excerpt 100%N = U.ascii_upper 100%N || U.ascii_lower 100%N.
Proof.
  apply (title_case_by_cased_runs U.excerpt (U.lit "abc1def") 4 100%N).
  - intros a _. repeat split.
  - reflexivity.
  - reflexivity.
Defined.

(** C6, as stated, fails: the listing of a directory that holds a
    sub-directory named [bad] followed by the surrogate U+DCFF (an
    undecodable byte of the file name) succeeds, and the run ends with
    the [UnicodeEncodeError] of [print] on a standard output in UTF-8,
    strict, and a non-zero exit status. *)
Lemma write_failure_refuted :
  forallb U.in_excerpt [98; 97; 100; 56575]%N = true
  /\ U.listdir (U.directory [[98; 97; 100; 56575]%N] [[98; 97; 100; 56575]%N])
               (U.lit ".")
     = Ok [[98; 97; 100; 56575]%N]
  /\ U.run U.excerpt
           (U.directory [[98; 97; 100; 56575]%N] [[98; 97; 100; 56575]%N])
     = (Raise UnicodeEncodeError,
        [U.ev_listdir (U.lit "."); U.ev_is_dir [98; 97; 100; 56575]%N])
  /\ exit_status
       (fst (U.run U.excerpt
                   (U.directory [[98; 97; 100; 56575]%N]
                                [[98; 97; 100; 56575]%N])))
     <> 0%N.
Proof.
  split; [reflexivity|]. split; [reflexivity|]. split; [reflexivity|].
  intros H. vm_compute in H. discriminate H.
Qed.

(** The same failure for every database: the name itself, in the link
    of the block, cannot be encoded. *)
Lemma write_failure_every_database (db : U.database) :
  U.run db (U.directory [[98; 97; 100; 56575]%N] [[98; 97; 100; 56575]%N])
  = (Raise UnicodeEncodeError,
     [U.ev_listdir (U.lit "."); U.ev_is_dir [98; 97; 100; 56575]%N]).
Proof.
  rewrite (u_run_tested
             db
             (U.directory [[98; 97; 100; 56575]%N] [[98; 97; 100; 56575]%N])
             [[98; 97; 100; 56575]%N] eq_refl)
    by (repeat constructor; eexists; reflexivity).
  change (U.printed_dirs _ _) with ([] ++ [[98; 97; 100; 56575]%N] ++ []).
  rewrite (u_for_each_raises db _ [] [] [98; 97; 100; 56575]%N
                             UnicodeEncodeError);
    [reflexivity|constructor|].
  unfold U.directory, U.write, U.write_utf8_strict, U.block, U.fstring.
  rewrite !existsb_app. simpl. now rewrite !orb_true_r.
Qed.

(** C6, amended: a run fails, with the exception as a fatal error and a
    non-zero exit status, when the current directory cannot be listed
    (nothing is tested or written), when the "is a directory" test of an
    entry raises (nothing is written) and when [print] cannot write a
    block (the blocks before it are written); when the listing, the
    tests and the writes succeed it ends normally with every block
    written. The title expression (split, title-case, join) returns a
    title for every path string; [split] raises for the empty separator
    only. *)
Theorem failures_of_a_run (db : U.database) (w : U.world) :
  (forall e,
     U.listdir w (U.lit ".") = Raise e ->
     U.run db w = (Raise e, [U.ev_listdir (U.lit ".")])
     /\ exit_status (fst (U.run db w)) <> 0%N)
  /\ (forall tested name rest e,
        U.listdir w (U.lit ".") = Ok (tested ++ name :: rest) ->
        Forall (fun n => exists b, U.stat_is_dir w n = Ok b) tested ->
        U.stat_is_dir w name = Raise e ->
        fst (U.run db w) = Raise e
        /\ exit_status (fst (U.run db w)) <> 0%N
        /\ U.writes (snd (U.run db w)) = [])
  /\ (forall names written d rest e,
        U.listdir w (U.lit ".") = Ok names ->
        Forall (fun n => exists b, U.stat_is_dir w n = Ok b) names ->
        U.printed_dirs w names = written ++ d :: rest ->
        Forall (fun n => U.write w (U.block db n) = Ok tt) written ->
        U.write w (U.block db d) = Raise e ->
        fst (U.run db w) = Raise e
        /\ exit_status (fst (U.run db w)) <> 0%N
        /\ U.writes (snd (U.run db w)) = map (U.block db) written)
  /\ (forall names,
        U.listdir w (U.lit ".") = Ok names ->
        Forall (fun n => exists b, U.stat_is_dir w n = Ok b) names ->
        Forall (fun n => U.write w (U.block db n) = Ok tt)
               (U.printed_dirs w names) ->
        fst (U.run db w) = Ok tt
        /\ U.writes (snd (U.run db w))
           = map (U.block db) (U.printed_dirs w names))
  /\ (forall name, exists t, U.folder_name db name = Ok t)
  /\ (forall s sep,
        (exists pieces, U.split s sep = Ok pieces) <-> sep <> []).
Proof.
  split; [|split; [|split; [|split; [|split]]]].
  - intros e H. rewrite (u_run_unlisted db w e H). split; [reflexivity|].
    discriminate.
  - intros tested name rest e H Ht He.
    rewrite (u_run_test_raises db w tested rest name e H Ht He).
    split; [reflexivity|]. split; [discriminate|].
    simpl. apply u_writes_is_dir.
  - intros names written d rest e H Ht Hp Hw He.
    rewrite (u_run_tested db w names H Ht), Hp.
    rewrite (u_for_each_raises db w written rest d e _ Hw He).
    split; [reflexivity|]. split; [discriminate|].
    simpl. now rewrite u_writes_app, u_writes_is_dir, u_writes_blocks.
  - intros names H Ht Hw.
    rewrite (u_run_tested db w names H Ht).
    rewrite (u_for_each_written db w _ _ Hw).
    split; [reflexivity|].
    simpl. now rewrite u_writes_app, u_writes_is_dir, u_writes_blocks.
  - intros name. exists (U.displayed_title db name). apply u_folder_name_ok.
  - intros s [|c sep]; simpl; split.
    + intros [pieces F]. discriminate F.
    + intros F. now contradiction F.
    + discriminate.
    + intros _. eexists. reflexivity.
Qed.

Lemma failures_of_a_run_witness :
  fst (U.run U.excerpt
             (U.directory [U.lit "zoo"; [98; 97; 100; 56575]%N; U.lit "apps"]
                          [U.lit "zoo"; [98; 97; 100; 56575]%N; U.lit "apps"]))
  = Raise UnicodeEncodeError
  /\ exit_status
       (fst (U.run U.excerpt
                   (U.directory
                      [U.lit "zoo"; [98; 97; 100; 56575]%N; U.lit "apps"]
                      [U.lit "zoo"; [98; 97; 100; 56575]%N; U.lit "apps"])))
     <> 0%N
  /\ U.writes
       (snd (U.run U.excerpt
                   (U.directory
                      [U.lit "zoo"; [98; 97; 100; 56575]%N; U.lit "apps"]
                      [U.lit "zoo"; [98; 97; 100; 56575]%N; U.lit "apps"])))
     = map (U.block U.excerpt) [U.lit "apps"].
Proof.
  apply (proj1 (proj2 (proj2
           (failures_of_a_run
              U.excerpt
              (U.directory
                 [U.lit "zoo"; [98; 97; 100; 56575]%N; U.lit "apps"]
                 [U.lit "zoo"; [98; 97; 100; 56575]%N; U.lit "apps"])))))
    with (names := [U.lit "zoo"; [98; 97; 100; 56575]%N; U.lit "apps"])
         (d := [98; 97; 100; 56575]%N) (rest := [U.lit "zoo"]).
  - reflexivity.
  - repeat constructor; eexists; reflexivity.
  - reflexivity.
  - repeat constructor.
  - reflexivity.
Defined.

End UnicodeClaims.

(** * The two embeddings on the names of ASCII characters *)

Section Agreement.

Local Open Scope list_scope.

Lemma lit_app (a b : string) : U.lit (a ++ b)%string = U.lit a ++ U.lit b.
Proof.
  unfold U.lit. induction a as [|c a IH]; simpl; [reflexivity|].
  now rewrite IH.
Qed.

(** The rows of the excerpt for an ASCII character are the ASCII case
    tables. *)
Lemma excerpt_ascii_row (whole : U.str) (i : nat) (c : ascii) :
  (Char.code c <? 128)%N = true ->
  U.lower_at U.excerpt whole i (Char.code c) = [Char.code (Char.tolower c)]
  /\ U.totitle_full U.excerpt (Char.code c) = [Char.code (Char.totitle c)]
  /\ U.iscased U.excerpt (Char.code c) = Char.iscased c.
Proof.
  destruct c as [[] [] [] [] [] [] [] []]; intros H;
    solve [discriminate H | repeat split].
Qed.

Lemma excerpt_title_loop (whole : U.str) (i : nat) (b : bool) (s : string) :
  is_ascii s = true ->
  U.title_loop U.excerpt whole i b (U.lit s) = U.lit (title_from b s).
Proof.
  revert i b. induction s as [|c s IH]; intros i b H; [reflexivity|].
  simpl in H. apply andb_true_iff in H. destruct H as [Hc Hs].
  destruct (excerpt_ascii_row whole i c Hc) as (El & Et & Ec).
  change (U.lit (String c s)) with (Char.code c :: U.lit s).
  cbn [U.title_loop title_from]. rewrite El, Et, Ec, (IH _ _ Hs).
  now destruct b.
Qed.

Lemma lit_ascii (s : string) (a : U.codepoint) :
  is_ascii s = true -> In a (U.lit s) -> (a < 128)%N.
Proof.
  induction s as [|c s IH]; intros H Ha; [destruct Ha|].
  simpl in H. apply andb_true_iff in H. destruct H as [Hc Hs].
  destruct Ha as [<-|Ha]; [now apply N.ltb_lt|now apply IH].
Qed.

(** On a text of ASCII characters [str.title] over Unicode text, for
    every database that has the ASCII rows, is the title of the ASCII
    tables. *)
Lemma ascii_title_agrees (db : U.database) (s : string) :
  (forall a, (a < 128)%N -> U.same_row db U.excerpt a) ->
  is_ascii s = true ->
  U.title db (U.lit s) = U.lit (title s).
Proof.
  intros Hrows H.
  rewrite (u_title_rows db U.excerpt)
    by (intros a Ha; apply Hrows; now apply (lit_ascii s)).
  now apply excerpt_title_loop.
Qed.

Lemma lit_split_on (s : string) :
  U.split_on U.hyphen (U.lit s) = map U.lit (split_on hyphen s).
Proof.
  induction s as [|c s IH]; [reflexivity|].
  change (U.lit (String c s)) with (Char.code c :: U.lit s).
  cbn [U.split_on split_on]. rewrite IH.
  assert ((Char.code c =? U.hyphen)%N = Ascii.eqb c hyphen) as ->.
  { destruct (Ascii.eqb_spec c hyphen) as [->|Hc]; [reflexivity|].
    apply N.eqb_neq. intros E. apply Hc. now apply code_inj. }
  destruct (Ascii.eqb c hyphen); [reflexivity|].
  now destruct (split_on hyphen s).
Qed.

Lemma lit_join (sep : string) (items : list string) :
  U.join (U.lit sep) (map U.lit items) = U.lit (str_join sep items).
Proof.
  induction items as [|x [|y rest] IH]; try reflexivity.
  cbn [map] in *. rewrite u_join_cons, IH, str_join_cons, !lit_app.
  reflexivity.
Qed.

Lemma split_on_ascii (s : string) :
  is_ascii s = true -> Forall (fun p => is_ascii p = true) (split_on hyphen s).
Proof.
  induction s as [|c s IH]; intros H; [now repeat constructor|].
  simpl in H. apply andb_true_iff in H. destruct H as [Hc Hs].
  specialize (IH Hs). simpl. destruct (Ascii.eqb c hyphen).
  - now constructor.
  - destruct (split_on hyphen s) as [|p ps].
    + repeat constructor. simpl. now rewrite Hc.
    + inversion IH as [|? ? Hp Hps]; subst.
      constructor; [|exact Hps]. simpl. now rewrite Hc, Hp.
Qed.

(** On a name of ASCII characters the expression of the script for the
    title gives, over Unicode text and for every database that has the
    ASCII rows, the title of the first embedding. *)
Lemma ascii_folder_name_agrees (db : U.database) (name : string) :
  (forall a, (a < 128)%N -> U.same_row db U.excerpt a) ->
  is_ascii name = true ->
  U.folder_name db (U.lit name) = Ok (U.lit (displayed_title name))
  /\ folder_name name = Ok (displayed_title name).
Proof.
  intros Hrows H. split; [|apply folder_name_ok].
  rewrite u_folder_name_ok. unfold U.displayed_title, displayed_title.
  rewrite lit_split_on, map_map.
  change [U.space] with (U.lit " "). rewrite <- lit_join, map_map.
  do 2 f_equal. apply map_ext_in. intros piece Hp.
  apply ascii_title_agrees; [exact Hrows|].
  pose proof (split_on_ascii name H) as F. rewrite Forall_forall in F.
  now apply F.
Qed.

Lemma unlit_lit (s : string) : unlit (U.lit s) = s.
Proof.
  unfold unlit, U.lit. rewrite map_map.
  rewrite (map_ext _ (fun c => c)) by apply ascii_N_embedding.
  rewrite map_id. apply string_of_list_ascii_of_string.
Qed.

Lemma lit_ltb (a b : string) : U.ltb (U.lit a) (U.lit b) = str_ltb a b.
Proof.
  revert b. induction a as [|x a IH]; intros [|y b]; try reflexivity.
  change (U.lit (String x a)) with (Char.code x :: U.lit a).
  change (U.lit (String y b)) with (Char.code y :: U.lit b).
  cbn [U.ltb str_ltb]. rewrite IH.
  destruct (Ascii.eqb_spec x y) as [->|Hxy].
  - now rewrite N.eqb_refl.
  - destruct (N.eqb_spec (Char.code x) (Char.code y)) as [E|_];
      [|reflexivity].
    exfalso. now apply Hxy, code_inj.
Qed.

Lemma lit_block (db : U.database) (name : string) :
  (forall a, (a < 128)%N -> U.same_row db U.excerpt a) ->
  is_ascii name = true ->
  U.block db (U.lit name) = U.lit (block name).
Proof.
  intros Hrows H.
  destruct (ascii_folder_name_agrees db name Hrows H) as [E _].
  rewrite u_folder_name_ok in E. injection E as E.
  unfold U.block, U.fstring, block, heading. rewrite E, !lit_app.
  rewrite <- !app_assoc. reflexivity.
Qed.

Lemma lit_filter (w : world) (names : list string) :
  filter (U.reported (world_of w)) (map U.lit names)
  = map U.lit (filter (fs_is_dir w) names).
Proof.
  induction names as [|n names IH]; [reflexivity|].
  cbn [map filter]. rewrite IH.
  unfold U.reported at 1. cbn [world_of U.stat_is_dir]. rewrite unlit_lit.
  now destruct (fs_is_dir w n).
Qed.

Lemma lit_printed_dirs (w : world) (names : list string) :
  U.printed_dirs (world_of w) (map U.lit names)
  = map U.lit (printed_dirs w names).
Proof.
  unfold U.printed_dirs, printed_dirs. rewrite lit_filter.
  apply list_sort_map. exact lit_ltb.
Qed.

(** On a directory whose names are made of ASCII characters, a run of
    the first embedding is the run over Unicode text in the world where
    the tests report and the writes succeed, for every database that has
    the ASCII rows. *)
Lemma ascii_run_agrees (db : U.database) (w : world) :
  (forall a, (a < 128)%N -> U.same_row db U.excerpt a) ->
  (forall names,
     fs_listdir w "." = Ok names ->
     Forall (fun n => is_ascii n = true) names) ->
  U.run db (world_of w) = (fst (run w), map event_of (snd (run w))).
Proof.
  intros Hrows Hascii.
  destruct (fs_listdir w ".") as [names|e] eqn:H.
  - rewrite (run_listed w names H).
    assert (U.listdir (world_of w) (U.lit ".") = Ok (map U.lit names)) as HU.
    { cbn [world_of U.listdir]. now rewrite unlit_lit, H. }
    rewrite (u_run_tested db (world_of w) _ HU)
      by (apply Forall_forall; intros n _; now eexists).
    rewrite u_for_each_written by (apply Forall_forall; now intros).
    rewrite lit_printed_dirs. unfold run_trace. simpl fst. simpl snd.
    f_equal. cbn [map event_of]. rewrite map_app, !map_map.
    cbn [app]. do 2 f_equal.
    apply map_ext_in. intros n Hn. cbn [event_of]. f_equal.
    apply lit_block; [exact Hrows|].
    specialize (Hascii names eq_refl). rewrite Forall_forall in Hascii.
    apply Hascii. now apply (printed_dirs_In w names n).
  - rewrite (run_unlisted w e H).
    apply u_run_unlisted. cbn [world_of U.listdir]. now rewrite unlit_lit, H.
Qed.

End Agreement.
